(** * Terminal AI assistant: the command pipeline of [AIService]

    A shallow embedding of [src/services/aiService.ts] and the properties of
    its response extraction, repetition collapse, normalisation, validation
    and retry loop.

    JavaScript strings are modelled as lists of code units.  The model covers
    the strings whose code units are below 256 (ASCII and Latin-1), which is
    where every character class, separator and table entry of the source
    lives; [toLowerCase], [trim] and the regular expression class [\s] are
    written out for that range. *)

From Stdlib Require Import Ascii String DecimalString.
From Stdlib Require Import List Bool Arith NArith Lia.
Import ListNotations.

Set Warnings "-abstract-large-number".

Local Open Scope string_scope.
Local Open Scope list_scope.
Local Open Scope nat_scope.

(** ** Strings *)

Module Js.

Abbreviation jsstring := (list ascii).

(** String literals of the source are written as Rocq string literals. *)
Definition lit (s : string) : jsstring := list_ascii_of_string s.
Coercion lit : string >-> list.

Definition code (c : ascii) : N := N_of_ascii c.

Definition between (lo hi : N) (c : ascii) : bool :=
  (lo <=? code c)%N && (code c <=? hi)%N.

(** [\s] of a regular expression and the characters [trim] removes: TAB, LF,
    VT, FF, CR, SPACE and NBSP are the ones below 256. *)
Definition is_space (c : ascii) : bool :=
  between 9 13 c || (code c =? 32)%N || (code c =? 160)%N.

Definition is_upper (c : ascii) : bool := between 65 90 c.
Definition is_lower (c : ascii) : bool := between 97 122 c.
Definition is_digit (c : ascii) : bool := between 48 57 c.

(** [[a-zA-Z]] *)
Definition is_letter (c : ascii) : bool := is_upper c || is_lower c.
(** [[a-zA-Z0-9]] *)
Definition is_alnum (c : ascii) : bool := is_letter c || is_digit c.

(** [String.prototype.toLowerCase] on one code unit: A-Z, and the Latin-1
    capitals 192-222 except the multiplication sign 215. *)
Definition lower_char (c : ascii) : ascii :=
  if is_upper c || (between 192 222 c && negb (code c =? 215)%N)
  then ascii_of_N (code c + 32)
  else c.

Definition toLowerCase (s : jsstring) : jsstring := map lower_char s.

Definition eqb (a b : jsstring) : bool :=
  if list_eq_dec ascii_dec a b then true else false.

(** [String.prototype.trim] *)
Fixpoint trimStart (s : jsstring) : jsstring :=
  match s with
  | c :: r => if is_space c then trimStart r else s
  | [] => []
  end.

Definition trimEnd (s : jsstring) : jsstring := rev (trimStart (rev s)).

Definition trim (s : jsstring) : jsstring := trimEnd (trimStart s).

(** [s.startsWith(p)], and what follows [p] when it does. *)
Fixpoint stripPrefix (p s : jsstring) : option jsstring :=
  match p, s with
  | [], _ => Some s
  | a :: p', b :: s' => if Ascii.eqb a b then stripPrefix p' s' else None
  | _ :: _, [] => None
  end.

Definition startsWith (p s : jsstring) : bool :=
  match stripPrefix p s with Some _ => true | None => false end.

(** [s.indexOf(p)] *)
Fixpoint indexOf (p s : jsstring) : option nat :=
  if startsWith p s then Some 0
  else match s with
       | [] => None
       | _ :: r => option_map S (indexOf p r)
       end.

(** [s.includes(p)] *)
Definition includes (s p : jsstring) : bool :=
  match indexOf p s with Some _ => true | None => false end.

(** [s.split(sep)] for a separator that is one character of a class; the
    result is never empty. *)
Fixpoint splitOn (sep : ascii -> bool) (s : jsstring) : list jsstring :=
  match s with
  | [] => [[]]
  | c :: r =>
      if sep c then [] :: splitOn sep r
      else match splitOn sep r with
           | h :: t => (c :: h) :: t
           | [] => [[c]]
           end
  end.

(** [parts.join(sep)] *)
Fixpoint join (sep : jsstring) (parts : list jsstring) : jsstring :=
  match parts with
  | [] => []
  | [p] => p
  | p :: rest => p ++ sep ++ join sep rest
  end.

(** The decimal digits of a number, as template literals print it. *)
Definition ofNat (n : nat) : jsstring :=
  lit (NilZero.string_of_uint (Nat.to_uint n)).

End Js.

Import Js.

Definition LF : ascii := "010"%char.
Definition CR : ascii := "013"%char.
Definition TAB : ascii := "009"%char.

(** ** Errors *)

(** What a [throw] carries: an [AIError] with its message and code, any other
    [Error] with its name and message, or a value that is not an [Error]. *)
Inductive Thrown :=
| AIError (message code : jsstring)
| JsError (name message : jsstring)
| NonError.

Inductive Result (A : Type) :=
| Ok (a : A)
| Throw (e : Thrown).
Arguments Ok {A} a.
Arguments Throw {A} e.

Definition bind {A B} (r : Result A) (k : A -> Result B) : Result B :=
  match r with
  | Ok a => k a
  | Throw e => Throw e
  end.

Notation "x <- r ;; k" := (bind r (fun x => k))
  (at level 61, r at next level, right associativity).
Notation "r ;;; k" := (bind r (fun _ => k))
  (at level 61, right associativity).

(** ** The completion object *)

Record ChatMessage := { content : option jsstring }.
Record Choice := { message : option ChatMessage }.
Record OpenRouterResponse := { choices : option (list Choice) }.

(** [data?.choices?.[0]?.message?.content]; [None] is [undefined]. *)
Definition contentPath (data : option OpenRouterResponse) : option jsstring :=
  match data with
  | Some d =>
      match choices d with
      | Some (c :: _) =>
          match message c with
          | Some m => content m
          | None => None
          end
      | _ => None
      end
  | None => None
  end.

(** ** Static configuration *)

Definition ADMIN_COMMANDS : list jsstring :=
  [lit "netsh"; lit "net"; lit "sc"; lit "reg"; lit "bcdedit"; lit "diskpart";
   lit "dism"; lit "sfc"; lit "format"; lit "chkdsk"; lit "taskkill";
   lit "rd /s"; lit "rmdir /s"; lit "del /f"; lit "takeown"; lit "icacls";
   lit "attrib"; lit "runas"].

Definition TIMEOUT : nat := 30000.
Definition MAX_RETRIES : nat := 3.
Definition RETRY_DELAY : nat := 1000.

(** ** removeCommandRepetitions *)

Definition removeCommandRepetitions (command : jsstring) : jsstring :=
  let trimmedCommand := trim command in
  let length := length trimmedCommand in
  if negb (length mod 2 =? 0) then trimmedCommand
  else
    let halfLength := length / 2 in
    let firstHalf := firstn halfLength trimmedCommand in
    let secondHalf := skipn halfLength trimmedCommand in
    if eqb firstHalf secondHalf then firstHalf else trimmedCommand.

(** ** validateResponse *)

(** [content.split(/\r?\n/)]: LF and CR LF separate lines, a CR alone does
    not. *)
Fixpoint splitLines (s : jsstring) : list jsstring :=
  match s with
  | [] => [[]]
  | c :: r =>
      let cons_head :=
        match splitLines r with
        | h :: t => (c :: h) :: t
        | [] => [[c]]
        end in
      if Ascii.eqb c LF then [] :: splitLines r
      else if Ascii.eqb c CR then
        match r with
        | d :: r' => if Ascii.eqb d LF then [] :: splitLines r' else cons_head
        | [] => cons_head
        end
      else cons_head
  end.

Definition validateResponse (data : option OpenRouterResponse) : Result jsstring :=
  match contentPath data with
  | None | Some [] =>
      Throw (AIError "Invalid or empty response from AI" "INVALID_RESPONSE")
  | Some raw =>
      let content := trim raw in
      match content with
      | [] => Throw (AIError "AI returned an empty command" "EMPTY_COMMAND")
      | _ =>
          let lines := map trim (splitLines content) in
          match find (fun line => 0 <? length line) lines with
          | None =>
              Throw (AIError "No valid command found in AI response" "INVALID_RESPONSE")
          | Some firstValidLine => Ok (removeCommandRepetitions firstValidLine)
          end
      end
  end.

(** ** Regular expressions with the [g] flag

    [re s] is the length of the match that starts at the head of [s], if
    there is one.  The scan goes left to right, takes a match where it finds
    one and goes on behind it; the regular expressions scanned this way never
    match the empty string. *)

Inductive Chunk :=
| Matched (m : jsstring)
| Skipped (c : ascii).

Fixpoint scanFrom (re : jsstring -> option nat) (fuel : nat) (s : jsstring)
  : list Chunk :=
  match fuel, s with
  | S fuel', c :: r =>
      match re s with
      | Some (S n) =>
          Matched (firstn (S n) s) :: scanFrom re fuel' (skipn (S n) s)
      | _ => Skipped c :: scanFrom re fuel' r
      end
  | _, _ => []
  end.

Definition scan (re : jsstring -> option nat) (s : jsstring) : list Chunk :=
  scanFrom re (length s) s.

Definition matches (chunks : list Chunk) : list jsstring :=
  flat_map (fun ch => match ch with Matched m => [m] | Skipped _ => [] end) chunks.

(** [s.match(re)] with the [g] flag, [null] read as the empty array. *)
Definition matchAll (re : jsstring -> option nat) (s : jsstring) : list jsstring :=
  matches (scan re s).

Fixpoint takeWhile (f : ascii -> bool) (s : jsstring) : jsstring :=
  match s with
  | c :: r => if f c then c :: takeWhile f r else []
  | [] => []
  end.

(** [/(https?:\/\/[^\s]+)/] *)
Definition url_re (s : jsstring) : option nat :=
  let rest scheme :=
    match stripPrefix scheme s with
    | Some tail =>
        match takeWhile (fun c => negb (is_space c)) tail with
        | [] => None
        | run => Some (length scheme + length run)
        end
    | None => None
    end in
  match rest (lit "https://") with
  | Some n => Some n
  | None => rest (lit "http://")
  end.

(** [/\/[a-zA-Z]+|-[a-zA-Z]+/] *)
Definition param_re (s : jsstring) : option nat :=
  match s with
  | c :: r =>
      if Ascii.eqb c "/" || Ascii.eqb c "-"
      then match takeWhile is_letter r with
           | [] => None
           | run => Some (1 + length run)
           end
      else None
  | [] => None
  end.

(** ** cleanCommand *)

Definition placeholder (index : nat) : jsstring :=
  lit "__URL" ++ ofNat index ++ lit "__".

(** The [replace] callback over the chunks of the scan: a URL is pushed on
    [urls] and its place taken by the placeholder of its index. *)
Fixpoint storeUrls (chunks : list Chunk) (urls : list jsstring)
  : jsstring * list jsstring :=
  match chunks with
  | [] => ([], urls)
  | Skipped c :: rest =>
      let (out, urls') := storeUrls rest urls in (c :: out, urls')
  | Matched m :: rest =>
      let pushed := urls ++ [m] in
      let (out, urls') := storeUrls rest pushed in
      (placeholder (length pushed - 1) ++ out, urls')
  end.

(** What [commonCommands[firstWord]] evaluates to.  The object literal has
    five keys of its own; [constructor] and [__proto__] are the lower-case
    names it inherits from [Object.prototype], truthy values that have no
    [includes] method. *)
Inductive Lookup :=
| ValidParams (validParams : list jsstring)
| Inherited
| Undefined.

Definition commonCommands (key : jsstring) : Lookup :=
  if eqb key "ipconfig" then
    ValidParams [lit "/all"; lit "/release"; lit "/renew"; lit "/flushdns"]
  else if eqb key "dir" then
    ValidParams [lit "/a"; lit "/b"; lit "/s"; lit "/w"; lit "/p"; lit "/o"; lit "/ad"]
  else if eqb key "netstat" then
    ValidParams [lit "-a"; lit "-n"; lit "-b"; lit "-o"]
  else if eqb key "ping" then
    ValidParams [lit "-t"; lit "-a"; lit "-n"; lit "-l"]
  else if eqb key "curl" then
    ValidParams [lit "-s"; lit "-o"; lit "-L"; lit "-I"; lit "-H"]
  else if eqb key "constructor" || eqb key "__proto__" then Inherited
  else Undefined.

(** [validParams.includes(x)] *)
Definition arrayIncludes (l : list jsstring) (x : jsstring) : bool :=
  existsb (eqb x) l.

(** [params.add(x)] on a [Set], which keeps its elements in insertion order
    ([Array.from] reads them in that order). *)
Definition setAdd (params : list jsstring) (x : jsstring) : list jsstring :=
  if arrayIncludes params x then params else params ++ [x].

(** The [forEach] that keeps the valid, unique parameters. *)
Fixpoint keepValid (validParams paramMatches params : list jsstring)
  : list jsstring :=
  match paramMatches with
  | [] => params
  | param :: rest =>
      keepValid validParams rest
        (if arrayIncludes validParams (toLowerCase param)
         then setAdd params (toLowerCase param)
         else params)
  end.

(** The [for] loop that collects the parts after the first one until one of
    them is the base command again. *)
Fixpoint collectParameters (baseCommand : jsstring) (parts : list jsstring)
  : list jsstring :=
  match parts with
  | [] => []
  | part :: rest =>
      if eqb (toLowerCase part) (toLowerCase baseCommand) then []
      else part :: collectParameters baseCommand rest
  end.

(** The replacement patterns of [String.prototype.replace] when the pattern
    is a string, so that there is no capture group: [$$], [$&], [$`] and
    [$']; any other [$] stands for itself. *)
Fixpoint getSubstitution (matched before after replacement : jsstring)
  : jsstring :=
  match replacement with
  | [] => []
  | c :: r =>
      if Ascii.eqb c "$" then
        match r with
        | d :: r' =>
            if Ascii.eqb d "$" then "$"%char :: getSubstitution matched before after r'
            else if Ascii.eqb d "&" then matched ++ getSubstitution matched before after r'
            else if Ascii.eqb d "`" then before ++ getSubstitution matched before after r'
            else if Ascii.eqb d "'" then after ++ getSubstitution matched before after r'
            else c :: getSubstitution matched before after r
        | [] => [c]
        end
      else c :: getSubstitution matched before after r
  end.

(** [s.replace(pattern, replacement)] with a string pattern: the first
    occurrence only. *)
Definition replaceFirst (pattern replacement s : jsstring) : jsstring :=
  match indexOf pattern s with
  | None => s
  | Some i =>
      let before := firstn i s in
      let after := skipn (i + length pattern) s in
      before ++ getSubstitution pattern before after replacement ++ after
  end.

(** The [forEach] that puts the URLs back, [index] counting from the first. *)
Fixpoint restoreUrls (urls : list jsstring) (index : nat) (cleanedCommand : jsstring)
  : jsstring :=
  match urls with
  | [] => cleanedCommand
  | url :: rest =>
      restoreUrls rest (S index) (replaceFirst (placeholder index) url cleanedCommand)
  end.

(** The lookbehind [(?<!http:|https:)]: [before] is the text in front of the
    position, last character first. *)
Definition afterScheme (before : jsstring) : bool :=
  startsWith (rev (lit "http:")) before || startsWith (rev (lit "https:")) before.

(** [s.replace(/(?<!http:|https:)\/\//g, '\\')] *)
Fixpoint fixSeparators (before s : jsstring) : jsstring :=
  match s with
  | [] => []
  | c :: r =>
      match r with
      | d :: r' =>
          if Ascii.eqb c "/" && Ascii.eqb d "/" && negb (afterScheme before)
          then "\"%char :: fixSeparators (d :: c :: before) r'
          else c :: fixSeparators (c :: before) r
      | [] => [c]
      end
  end.

(** [/^[^a-zA-Z0-9]/.test(s)] *)
Definition startsInvalid (s : jsstring) : bool :=
  match s with
  | c :: _ => negb (is_alnum c)
  | [] => false
  end.

Definition cleanCommand (command : jsstring) : Result jsstring :=
  let cleanedCommand := trim command in
  let (cleanedCommand, urls) := storeUrls (scan url_re cleanedCommand) [] in
  let firstWord := toLowerCase (hd [] (splitOn (Ascii.eqb " ") cleanedCommand)) in
  cleanedCommand <-
    match commonCommands firstWord with
    | ValidParams validParams =>
        let paramMatches := matchAll param_re cleanedCommand in
        let params := keepValid validParams paramMatches [] in
        Ok (firstWord ++ lit " " ++ join " " params)
    | Inherited =>
        match matchAll param_re cleanedCommand with
        | [] => Ok (firstWord ++ lit " " ++ join " " [])
        | _ :: _ => Throw (JsError "TypeError" "validParams.includes is not a function")
        end
    | Undefined =>
        let parts := splitOn (Ascii.eqb " ") cleanedCommand in
        let baseCommand := hd [] parts in
        let parameters := collectParameters baseCommand (tl parts) in
        Ok (baseCommand ++
            match parameters with
            | [] => []
            | _ => lit " " ++ join " " parameters
            end)
    end ;;
  let cleanedCommand := restoreUrls urls 0 cleanedCommand in
  let cleanedCommand := fixSeparators [] cleanedCommand in
  if startsInvalid cleanedCommand
  then Throw (AIError "Invalid command structure" "INVALID_COMMAND")
  else Ok cleanedCommand.

(** ** validateCommand *)

Definition requiresAdminPrivileges (command : jsstring) : bool :=
  let commandLower := toLowerCase command in
  existsb (fun adminCmd => includes commandLower (toLowerCase adminCmd))
          ADMIN_COMMANDS.

(** [segment.match(/(?<!>)>/g)]: every [>] whose preceding character, if any,
    is not [>].  [afterGt] tells whether the character before [s] is [>]. *)
Fixpoint matchRedirections (afterGt : bool) (s : jsstring) : list jsstring :=
  match s with
  | [] => []
  | c :: r =>
      if Ascii.eqb c ">"
      then (if afterGt then [] else [lit ">"]) ++ matchRedirections true r
      else matchRedirections false r
  end.

Definition is_segment_separator (c : ascii) : bool :=
  Ascii.eqb c "&" || Ascii.eqb c "|".

(** The [for] loop over the segments, leaving at the first [throw]. *)
Fixpoint checkSegments (commandSegments : list jsstring) : Result unit :=
  match commandSegments with
  | [] => Ok tt
  | segment :: rest =>
      let redirectionCount := length (matchRedirections false segment) in
      if 1 <? redirectionCount
      then Throw (AIError "Too many output redirections in a single command segment"
                          "INVALID_REDIRECTION")
      else checkSegments rest
  end.

Definition validateCommand (command : jsstring) : Result unit :=
  match command with
  | [] => Throw (AIError "Command is empty after cleaning" "EMPTY_COMMAND")
  | _ =>
      if requiresAdminPrivileges command
      then Throw (AIError "This command requires administrator privileges"
                          "ADMIN_REQUIRED")
      else checkSegments (splitOn is_segment_separator command)
  end.

(** ** fetchWithRetry

    The network is an oracle: [network n] is how the [n]-th call of [fetch]
    (counting from 0) ends.  A call resolves with a response or rejects; the
    abort that the timeout timer fires rejects it with an error named
    [AbortError].  The world records the calls and the back-off delays in
    the order they happen. *)

Record Response := {
  ok : bool;
  status : nat;
  text : Result jsstring;
  json : Result (option OpenRouterResponse)
}.

Inductive FetchOutcome :=
| Resolved (response : Response)
| Rejected (error : Thrown).

Inductive Event :=
| Fetch
| Sleep (ms : nat).

Record World := { calls : nat; log : list Event }.

Definition initial : World := {| calls := 0; log := [] |}.

Definition record (e : Event) (w : World) : World :=
  {| calls := match e with Fetch => S (calls w) | Sleep _ => calls w end;
     log := log w ++ [e] |}.

(** [error instanceof Error ? error : new Error('Unknown error')] *)
Definition asError (error : Thrown) : Thrown :=
  match error with
  | NonError => JsError "Error" "Unknown error"
  | _ => error
  end.

(** [error instanceof Error && error.name === 'AbortError']; the name of an
    [AIError] is [AIError]. *)
Definition isAbortError (error : Thrown) : bool :=
  match error with
  | JsError name _ => eqb name "AbortError"
  | _ => false
  end.

(** [lastError?.message] inside a template literal. *)
Definition messageOf (lastError : option Thrown) : jsstring :=
  match lastError with
  | Some (AIError message _) => message
  | Some (JsError _ message) => message
  | Some NonError | None => "undefined"
  end.

Section Network.

Variable network : nat -> FetchOutcome.

Definition fetch (w : World) : FetchOutcome * World :=
  (network (calls w), record Fetch w).

(** The body of the [try] block once [fetch] has settled: the response it
    returns or the error the [catch] block receives. *)
Definition attempt (outcome : FetchOutcome) : Result Response :=
  match outcome with
  | Rejected error => Throw error
  | Resolved response =>
      if negb (ok response) then
        body <- text response ;;
        Throw (AIError (lit "API returned " ++ ofNat (status response) ++ lit ": " ++ body)
                       "API_ERROR")
      else Ok response
  end.

Definition maxRetriesExceeded (lastError : option Thrown) : Thrown :=
  AIError (lit "Failed after " ++ ofNat MAX_RETRIES ++ lit " attempts: " ++ messageOf lastError)
          "MAX_RETRIES_EXCEEDED".

(** The [for] loop over the attempt numbers that are left. *)
Fixpoint retryLoop (attempts : list nat) (lastError : option Thrown) (w : World)
  : Result Response * World :=
  match attempts with
  | [] => (Throw (maxRetriesExceeded lastError), w)
  | attempt_number :: rest =>
      let (outcome, w) := fetch w in
      match attempt outcome with
      | Ok response => (Ok response, w)
      | Throw error =>
          let lastError := Some (asError error) in
          if isAbortError error
          then (Throw (AIError "Request timed out" "TIMEOUT"), w)
          else if attempt_number =? MAX_RETRIES
          then (Throw (maxRetriesExceeded lastError), w)
          else retryLoop rest lastError (record (Sleep (RETRY_DELAY * attempt_number)) w)
      end
  end.

Definition fetchWithRetry (w : World) : Result Response * World :=
  retryLoop (seq 1 MAX_RETRIES) None w.

(** ** generateCommand *)

Definition unexpected : Thrown :=
  JsError "Error" "An unexpected error occurred during command generation".

(** The [catch] block: an [AIError] goes through, anything else is replaced. *)
Definition rethrow {A} (r : Result A) : Result A :=
  match r with
  | Throw (AIError message code) => Throw (AIError message code)
  | Throw _ => Throw unexpected
  | Ok a => Ok a
  end.

(** The result is the command of the one-element array that is returned. *)
Definition generateCommand (userInput : jsstring) (w : World)
  : Result jsstring * World :=
  match trim userInput with
  | [] => (Throw (AIError "User input is required" "INVALID_INPUT"), w)
  | _ =>
      let (fetched, w) := fetchWithRetry w in
      (rethrow (response <- fetched ;;
                data <- json response ;;
                command <- validateResponse data ;;
                validateCommand command ;;;
                Ok command), w)
  end.

End Network.

(** ** createPrompt

    [CURRENT_DIR] is what [process.cwd()] gave when the class was loaded. *)

Definition createPrompt (CURRENT_DIR userInput : jsstring) : jsstring :=
  lit "Task: Generate a valid Windows Command Prompt command.
Current directory: " ++ CURRENT_DIR ++ lit "
User request: " ++ userInput ++ lit "

Requirements:
1. Provide ONLY ONE single command without explanation or repetition.
2. Use relative paths where applicable.
3. No PowerShell commands, only CMD-compatible commands.
4. The command must be safe and executable in Windows CMD.


Your response:".

(** ** executeCommand

    The shell is an oracle: [shell command] is how the call of [exec] for
    [command] ends.  Either [exec] throws before a shell is started, as it
    does for a command that is empty or holds a NUL character, or it starts
    the shell and calls back, with an error and its message or without one,
    and with what the command wrote.  [exec] is called inside the executor
    of the promise, so that what it throws rejects the promise.  The
    commands for which a shell is started are recorded in the order they are
    run. *)

Module Shell.

Record CommandResult := {
  success : bool;
  output : jsstring;
  error : option jsstring
}.

Inductive ExecOutcome :=
| Throws (thrown : Thrown)
| CallsBack (execError : option jsstring) (stdout stderr : jsstring).

(** [a || b] on strings: the empty string is the falsy one. *)
Definition orElse (a b : jsstring) : jsstring :=
  match a with
  | [] => b
  | _ => a
  end.

(** The callback given to [exec]. *)
Definition settle (execError : option jsstring) (stdout stderr : jsstring)
  : CommandResult :=
  match execError with
  | Some message => {| success := false; output := []; error := Some message |}
  | None =>
      {| success := true;
         output := orElse stdout stderr;
         error := None |}
  end.

(** [executeCommand] of [commandService.ts]: the promise resolves with a
    result or rejects with what [exec] threw. *)
Definition executeCommand (shell : jsstring -> ExecOutcome) (command : jsstring)
  (ran : list jsstring) : Result CommandResult * list jsstring :=
  match shell command with
  | Throws thrown => (Throw thrown, ran)
  | CallsBack execError stdout stderr =>
      (Ok (settle execError stdout stderr), ran ++ [command])
  end.

End Shell.

(** The [executeCommand] that the preload script exposes. *)
Module Preload.

Definition adminCommands : list jsstring :=
  [lit "netsh"; lit "net"; lit "sc"; lit "reg"; lit "bcdedit"; lit "diskpart";
   lit "dism"; lit "sfc"].

Definition requiresAdmin (command : jsstring) : bool :=
  existsb (fun cmd => startsWith (toLowerCase cmd) (toLowerCase command))
          adminCommands.

Definition executeCommand (shell : jsstring -> Shell.ExecOutcome) (command : jsstring)
  (ran : list jsstring) : Result Shell.CommandResult * list jsstring :=
  if requiresAdmin command
  then (Ok {| Shell.success := false;
              Shell.output := [];
              Shell.error :=
                Some (lit "This command requires administrator privileges. Please run the application as administrator.") |},
        ran)
  else match shell command with
       | Shell.Throws thrown => (Throw thrown, ran)
       | Shell.CallsBack execError stdout stderr =>
           (Ok (Shell.settle execError stdout stderr), ran ++ [command])
       end.

End Preload.

(** ** The command line program

    What the [action] of the program prints is kept line by line, by the
    kind of the line and the text it carries; the colours and the pictographs
    in front are left out.  [exitCode] is [Some 1] when [process.exit(1)] is
    reached.  The [catch] block takes what [generateCommand] throws and
    what the promise of [executeCommand] is rejected with alike. *)

Module Cli.

Inductive Printed :=
| Generating
| CommandLine (command : jsstring)
| Executing
| OutputHeader
| OutputText (text : jsstring)
| ExecutionError (error : option jsstring)
| Failure (message : jsstring).

Record Run := {
  printed : list Printed;
  executed : list jsstring;
  fetched : nat;
  exitCode : option nat
}.

(** [error instanceof Error ? error.message : 'Unknown error'] *)
Definition errorMessage (error : Thrown) : jsstring :=
  messageOf (Some (asError error)).

Definition action (network : nat -> FetchOutcome)
  (shell : jsstring -> Shell.ExecOutcome) (query : jsstring) : Run :=
  match generateCommand network query initial with
  | (Ok command, w) =>
      match Shell.executeCommand shell command [] with
      | (Ok result, ran) =>
          {| printed :=
               [Generating; CommandLine command; Executing] ++
               (if Shell.success result
                then [OutputHeader;
                      OutputText (Shell.orElse (Shell.output result) "(No output)")]
                else [ExecutionError (Shell.error result)]);
             executed := ran;
             fetched := calls w;
             exitCode := None |}
      | (Throw error, ran) =>
          {| printed :=
               [Generating; CommandLine command; Executing;
                Failure (errorMessage error)];
             executed := ran;
             fetched := calls w;
             exitCode := Some 1 |}
      end
  | (Throw error, w) =>
      {| printed := [Generating; Failure (errorMessage error)];
         executed := [];
         fetched := calls w;
         exitCode := Some 1 |}
  end.

(** [promptConfirmation], on the answer that [readline] hands over. *)
Definition promptConfirmation (answer : jsstring) : bool :=
  eqb (toLowerCase answer) "y".

End Cli.

(** * The vocabulary of the specification *)

(** A completion whose first choice carries [text]. *)
Definition completion (text : jsstring) : OpenRouterResponse :=
  {| choices := Some [ {| message := Some {| content := Some text |} |} ] |}.

(** The remote call settles with a 2xx response whose body parses to [c]. *)
Definition returnsCompletion (outcome : FetchOutcome) (c : OpenRouterResponse) : Prop :=
  exists response,
    outcome = Resolved response /\ ok response = true /\ json response = Ok (Some c).

(** An attempt fails with [error], which is not a timeout. *)
Definition failsWith (outcome : FetchOutcome) (error : Thrown) : Prop :=
  attempt outcome = Throw error /\ isAbortError error = false.


(** The collapser as the specification words it, at one string. *)
Definition halvesEqual (s : jsstring) : Prop :=
  s <> [] /\ Nat.even (length s) = true /\
  firstn (length s / 2) s = skipn (length s / 2) s.

Definition collapserAsSpecified (s : jsstring) : Prop :=
  (halvesEqual s -> removeCommandRepetitions s = firstn (length s / 2) s) /\
  (~ halvesEqual s -> removeCommandRepetitions s = s) /\
  removeCommandRepetitions (removeCommandRepetitions s) = removeCommandRepetitions s.

(** The denylist as the specification lists it. *)
Definition denylist : list jsstring :=
  [lit "netsh"; lit "net"; lit "sc"; lit "reg"; lit "bcdedit"; lit "diskpart";
   lit "dism"; lit "sfc"; lit "format"; lit "chkdsk"; lit "taskkill";
   lit "rd /s"; lit "rmdir /s"; lit "del /f"; lit "takeown"; lit "icacls";
   lit "attrib"; lit "runas"].

(** [entry] occurs in [text] as a substring, letter case ignored. *)
Definition containsIgnoringCase (text entry : jsstring) : Prop :=
  exists pre mid post,
    text = pre ++ mid ++ post /\ toLowerCase mid = toLowerCase entry.

Definition isGt (c : ascii) : bool := Ascii.eqb c ">".

(** The characters that chain commands. *)
Definition chainCharacter (c : ascii) : Prop := c = "&"%char \/ c = "|"%char.

(** [segment] is one of the segments that [&] and [|] cut [command] into: a
    piece of the command that holds neither character and that, on either
    side, reaches the end of the command or one of the two characters. *)
Definition segmentOf (command segment : jsstring) : Prop :=
  exists pre post,
    command = pre ++ segment ++ post /\
    (forall c, In c segment -> ~ chainCharacter c) /\
    (pre = [] \/ exists p c, pre = p ++ [c] /\ chainCharacter c) /\
    (post = [] \/ exists c q, post = c :: q /\ chainCharacter c).

(** The positions of a segment that hold a [>] not immediately preceded by
    another [>]. *)
Definition redirectionOperators (segment : jsstring) : list nat :=
  filter (fun i =>
            isGt (nth i segment " "%char) &&
            negb (match i with
                  | 0 => false
                  | S j => isGt (nth j segment " "%char)
                  end))
         (seq 0 (length segment)).

(** What [cleanCommand] works on once the URLs are stored: the trimmed text
    with placeholders, the stored URLs, the first word and the matches of
    the parameter pattern. *)
Definition maskedText (command : jsstring) : jsstring :=
  fst (storeUrls (scan url_re (trim command)) []).

Definition urlsOf (command : jsstring) : list jsstring :=
  snd (storeUrls (scan url_re (trim command)) []).

Definition baseWord (command : jsstring) : jsstring :=
  hd [] (splitOn (Ascii.eqb " ") (maskedText command)).

(** How many words the branch of the unknown commands keeps, and the text
    they make up: the trimmed text up to the first later word that, once the
    URLs are masked, is the first word again up to letter case. *)
Definition keptWords (command : jsstring) : nat :=
  S (length (collectParameters (baseWord command)
                               (tl (splitOn (Ascii.eqb " ") (maskedText command))))).

Definition keptText (command : jsstring) : jsstring :=
  join " " (firstn (keptWords command) (splitOn (Ascii.eqb " ") (trim command))).

(** The first word of the trimmed text as single spaces delimit it. *)
Definition firstWord (command : jsstring) : jsstring :=
  hd [] (splitOn (Ascii.eqb " ") (trim command)).

Definition flagTokens (command : jsstring) : list jsstring :=
  matchAll param_re (maskedText command).

(** The known commands and their flags as the specification lists them. *)
Definition knownCommands : list (jsstring * list jsstring) :=
  [(lit "ipconfig", [lit "/all"; lit "/release"; lit "/renew"; lit "/flushdns"]);
   (lit "dir", [lit "/a"; lit "/b"; lit "/s"; lit "/w"; lit "/p"; lit "/o"; lit "/ad"]);
   (lit "netstat", [lit "-a"; lit "-n"; lit "-b"; lit "-o"]);
   (lit "ping", [lit "-t"; lit "-a"; lit "-n"; lit "-l"]);
   (lit "curl", [lit "-s"; lit "-o"; lit "-L"; lit "-I"; lit "-H"])].

(** Each element once, in the order of the first occurrences. *)
Fixpoint firstSeen (l : list jsstring) : list jsstring :=
  match l with
  | [] => []
  | x :: r => x :: filter (fun y => negb (eqb y x)) (firstSeen r)
  end.

(** The first word as white space delimits it. *)
Definition firstWhitespaceWord (s : jsstring) : jsstring :=
  takeWhile (fun c => negb (is_space c)) (trim s).

(** What follows the first slash of the scheme of a URL, and the URLs in
    which no two slashes meet there: the ones the separator rewriting has
    nothing to rewrite in. *)
Definition pathOf (url : jsstring) : jsstring :=
  match stripPrefix "https:/" url with
  | Some tail => tail
  | None =>
      match stripPrefix "http:/" url with
      | Some tail => tail
      | None => url
      end
  end.

Definition plainUrl (url : jsstring) : Prop := includes (pathOf url) "//" = false.

(** Text without an underscore in which a letter follows every slash: no
    placeholder and no double slash can occur in it. *)
Fixpoint tidy (s : jsstring) : bool :=
  match s with
  | [] => true
  | c :: r =>
      negb (Ascii.eqb c "_") &&
      (if Ascii.eqb c "/"
       then match r with d :: _ => is_letter d | [] => false end
       else true) &&
      tidy r
  end.

(** A network whose first call returns the completion with [text]. *)
Definition answering (text : jsstring) (n : nat) : FetchOutcome :=
  Resolved {| ok := true; status := 200; text := Ok [];
              json := Ok (Some (completion text)) |}.

(** A network that answers 503, then fails in transport, then answers 500. *)
Definition failingNetwork (n : nat) : FetchOutcome :=
  match n with
  | 0 => Resolved {| ok := false; status := 503; text := Ok (lit "busy");
                     json := Throw NonError |}
  | 1 => Rejected (JsError "TypeError" "fetch failed")
  | _ => Resolved {| ok := false; status := 500; text := Ok (lit "down");
                     json := Throw NonError |}
  end.


(** The text a chunk of a scan stands for. *)
Definition chunkText (ch : Chunk) : jsstring :=
  match ch with
  | Matched m => m
  | Skipped c => [c]
  end.

(** A line without the carriage return that may end it. *)
Fixpoint stripCR (x : jsstring) : jsstring :=
  match x with
  | [] => []
  | c :: r =>
      match r with
      | [] => if Ascii.eqb c CR then [] else [c]
      | _ => c :: stripCR r
      end
  end.

(** The error of the client for a timeout. *)
Definition timedOut : Thrown := AIError "Request timed out" "TIMEOUT".

(** The number of calls in a trace, and the time waited in it. *)
Definition fetches (trace : list Event) : nat :=
  length (filter (fun e => match e with Fetch => true | Sleep _ => false end) trace).

Definition slept (trace : list Event) : nat :=
  fold_right (fun e total => match e with Fetch => total | Sleep ms => ms + total end)
             0 trace.

(** The body of a response never fails with an error of the service's own
    class. *)
Definition foreignBodyErrors (network : nat -> FetchOutcome) : Prop :=
  forall n response message code,
    network n = Resolved response -> json response <> Throw (AIError message code).

(** The codes [generateCommand] can raise. *)
Definition raisedCodes : list jsstring :=
  [lit "INVALID_INPUT"; lit "TIMEOUT"; lit "MAX_RETRIES_EXCEEDED";
   lit "INVALID_RESPONSE"; lit "EMPTY_COMMAND"; lit "ADMIN_REQUIRED";
   lit "INVALID_REDIRECTION"].

(** The text read so far and the text written so far by the separator
    rewriting, last character first: they differ by the rewritten pairs. *)
Inductive Rewritten : jsstring -> jsstring -> Prop :=
| rewritten_nil : Rewritten [] []
| rewritten_keep c read written :
    Rewritten read written -> Rewritten (c :: read) (c :: written)
| rewritten_pair read written :
    Rewritten read written ->
    Rewritten ("/"%char :: "/"%char :: read) ("\"%char :: written).

(** On a text given last character first: every double slash stands right
    behind [http:] or [https:]. *)
Fixpoint schemeSlashes (reversed : jsstring) : bool :=
  match reversed with
  | [] => true
  | c :: r =>
      match r with
      | d :: r' =>
          (negb (Ascii.eqb c "/" && Ascii.eqb d "/") || afterScheme r') &&
          schemeSlashes r
      | [] => true
      end
  end.

(** A token as the parameter pattern takes it: a slash or a hyphen, then
    letters only, at least one. *)
Definition flagShaped (f : jsstring) : bool :=
  match f with
  | sign :: (_ :: _) as letters =>
      (Ascii.eqb sign "/" || Ascii.eqb sign "-") && forallb is_letter letters
  | _ => false
  end.

(** What may follow a word: nothing, or a space. *)
Definition endsWord (rest : jsstring) : Prop :=
  rest = [] \/ exists r, rest = " "%char :: r.

(** * Properties *)

(** ** Strings *)

Section StringFacts.

Lemma eqb_eq (a b : jsstring) : eqb a b = true <-> a = b.
Proof.
  unfold eqb. destruct (list_eq_dec ascii_dec a b); split; congruence.
Qed.

Lemma eqb_neq (a b : jsstring) : eqb a b = false <-> a <> b.
Proof.
  unfold eqb. destruct (list_eq_dec ascii_dec a b); split; congruence.
Qed.

Lemma eqb_refl (a : jsstring) : eqb a a = true.
Proof. now apply eqb_eq. Qed.

Lemma stripPrefix_spec (p s tail : jsstring) :
  stripPrefix p s = Some tail <-> s = p ++ tail.
Proof.
  revert s. induction p as [|a p IH]; intros s; simpl.
  - split; congruence.
  - destruct s as [|b s].
    + split; discriminate.
    + destruct (Ascii.eqb_spec a b) as [->|Hne].
      * rewrite IH. split; congruence.
      * split; [discriminate | intros [= -> _]; contradiction].
Qed.

Lemma startsWith_spec (p s : jsstring) :
  startsWith p s = true <-> exists tail, s = p ++ tail.
Proof.
  unfold startsWith. destruct (stripPrefix p s) as [tail|] eqn:E.
  - apply stripPrefix_spec in E. split; eauto.
  - split; [discriminate|]. intros [tail H].
    apply stripPrefix_spec in H. congruence.
Qed.

Lemma indexOf_app (p s : jsstring) (i : nat) :
  indexOf p s = Some i ->
  exists tail, skipn i s = p ++ tail /\ i <= length s.
Proof.
  revert i. induction s as [|c s IH]; intros i; simpl.
  - destruct (startsWith p []) eqn:E; [|discriminate].
    intros [= <-]. apply startsWith_spec in E. simpl. destruct E as [t E]. eauto.
  - destruct (startsWith p (c :: s)) eqn:E.
    + intros [= <-]. apply startsWith_spec in E as [t E]. simpl. split with t.
      split; [assumption | lia].
    + destruct (indexOf p s) as [j|]; [|discriminate].
      intros [= <-]. destruct (IH j eq_refl) as (t & H & L).
      exists t. simpl. split; [assumption | lia].
Qed.

(** The index [indexOf] finds is the first one: the pattern starts at no
    earlier position. *)
Lemma indexOf_first (p s : jsstring) (i j : nat) :
  indexOf p s = Some i -> j < i -> startsWith p (skipn j s) = false.
Proof.
  revert i j. induction s as [|c s IH]; intros i j; simpl.
  - destruct (startsWith p []); [intros [= <-]; lia | discriminate].
  - destruct (startsWith p (c :: s)) eqn:E.
    + intros [= <-]. lia.
    + destruct (indexOf p s) as [k|] eqn:K; [|discriminate].
      intros [= <-] Hj. destruct j as [|j]; simpl; [assumption|].
      apply (IH k); [reflexivity | lia].
Qed.

Lemma indexOf_None (p s : jsstring) (j : nat) :
  indexOf p s = None -> startsWith p (skipn j s) = false.
Proof.
  revert j. induction s as [|c s IH]; intros j; simpl.
  - destruct (startsWith p []) eqn:E; [discriminate|]. now destruct j.
  - destruct (startsWith p (c :: s)) eqn:E; [discriminate|].
    destruct (indexOf p s) eqn:K; [discriminate|]. intros _.
    destruct j; simpl; [assumption | now apply IH].
Qed.

Lemma indexOf_found (p pre post : jsstring) :
  exists i, indexOf p (pre ++ p ++ post) = Some i /\ i <= length pre.
Proof.
  induction pre as [|c pre (i & IH & L)]; simpl.
  - assert (E : startsWith p (p ++ post) = true) by (apply startsWith_spec; eauto).
    destruct (p ++ post) eqn:Q; simpl in *; rewrite E; exists 0; auto.
  - destruct (startsWith p (c :: pre ++ p ++ post)).
    + exists 0. split; [reflexivity | lia].
    + rewrite IH. exists (S i). split; [reflexivity | lia].
Qed.

Lemma includes_spec (s p : jsstring) :
  includes s p = true <-> exists pre post, s = pre ++ p ++ post.
Proof.
  unfold includes. split.
  - destruct (indexOf p s) as [i|] eqn:E; [|discriminate]. intros _.
    destruct (indexOf_app _ _ _ E) as (t & H & _).
    exists (firstn i s), t. rewrite <- H. symmetry. apply firstn_skipn.
  - intros (pre & post & ->).
    destruct (indexOf_found p pre post) as (i & -> & _). reflexivity.
Qed.

Lemma toLowerCase_app (a b : jsstring) :
  toLowerCase (a ++ b) = toLowerCase a ++ toLowerCase b.
Proof. apply map_app. Qed.

Lemma toLowerCase_split (s a b : jsstring) :
  toLowerCase s = a ++ b ->
  exists s1 s2, s = s1 ++ s2 /\ toLowerCase s1 = a /\ toLowerCase s2 = b.
Proof.
  revert s. induction a as [|x a IH]; intros s; simpl.
  - intros H. exists [], s. auto.
  - destruct s as [|c s]; [discriminate|]. simpl. intros [= Hc H].
    destruct (IH _ H) as (s1 & s2 & -> & <- & <-).
    exists (c :: s1), s2. simpl. rewrite Hc. auto.
Qed.

(** *** trim *)

Lemma trimStart_all_space (s : jsstring) :
  forallb is_space s = true -> trimStart s = [].
Proof.
  induction s as [|c s IH]; simpl; [reflexivity|].
  destruct (is_space c); simpl; [assumption | discriminate].
Qed.

Lemma trimStart_head (s : jsstring) (c : ascii) (r : jsstring) :
  trimStart s = c :: r -> is_space c = false.
Proof.
  induction s as [|d s IH]; simpl; [discriminate|].
  destruct (is_space d) eqn:E; [assumption|]. now intros [= <- _].
Qed.

Lemma trimStart_fixed (c : ascii) (r : jsstring) :
  is_space c = false -> trimStart (c :: r) = c :: r.
Proof. intros H. simpl. now rewrite H. Qed.

Lemma trimStart_suffix (s : jsstring) :
  exists spaces, s = spaces ++ trimStart s /\ forallb is_space spaces = true.
Proof.
  induction s as [|c s (sp & IH & F)]; simpl.
  - now exists [].
  - destruct (is_space c) eqn:E.
    + exists (c :: sp). simpl. rewrite E, F. split; [now f_equal | reflexivity].
    + now exists [].
Qed.

Lemma trimEnd_prefix (s : jsstring) :
  exists spaces, s = trimEnd s ++ spaces /\ forallb is_space spaces = true.
Proof.
  unfold trimEnd. destruct (trimStart_suffix (rev s)) as (sp & H & F).
  exists (rev sp). split.
  - rewrite <- rev_app_distr, <- H. symmetry. apply rev_involutive.
  - rewrite forallb_forall in *. intros x Hx. apply F. now apply in_rev.
Qed.

Lemma trimEnd_cons (c : ascii) (s : jsstring) :
  is_space c = false -> trimEnd (c :: s) = c :: trimEnd s.
Proof.
  intros H. unfold trimEnd. simpl.
  destruct (trimStart (rev s)) as [|d t] eqn:E.
  - destruct (trimStart_suffix (rev s)) as (sp & Hs & F). rewrite E, app_nil_r in Hs.
    rewrite Hs. clear - F H. induction sp as [|x sp IH]; simpl.
    + now rewrite H.
    + simpl in F. apply andb_prop in F as [-> F]. auto.
  - destruct (trimStart_suffix (rev s)) as (sp & Hs & F). rewrite E in Hs.
    rewrite Hs. rewrite <- app_assoc. simpl.
    assert (Hd : is_space d = false) by (eapply trimStart_head; eassumption).
    clear - F Hd. induction sp as [|x sp IH]; simpl.
    + rewrite Hd. simpl. now rewrite rev_app_distr.
    + simpl in F. apply andb_prop in F as [-> F]. auto.
Qed.

Lemma trimEnd_last (s : jsstring) (c : ascii) (r : jsstring) :
  trimEnd s = r ++ [c] -> is_space c = false.
Proof.
  unfold trimEnd. intros H.
  assert (E : trimStart (rev s) = c :: rev r).
  { rewrite <- (rev_involutive (trimStart (rev s))), H, rev_app_distr. reflexivity. }
  eapply trimStart_head; eassumption.
Qed.

Lemma trimEnd_fixed (r : jsstring) (c : ascii) :
  is_space c = false -> trimEnd (r ++ [c]) = r ++ [c].
Proof.
  intros H. unfold trimEnd. rewrite rev_app_distr. simpl. rewrite H. simpl.
  now rewrite rev_involutive.
Qed.

Lemma trim_all_space (s : jsstring) :
  forallb is_space s = true -> trim s = [].
Proof. intros H. unfold trim. now rewrite trimStart_all_space. Qed.

Lemma trim_head (s : jsstring) (c : ascii) (r : jsstring) :
  trim s = c :: r -> is_space c = false.
Proof.
  unfold trim. intros H.
  destruct (trimStart s) as [|d t] eqn:E; [discriminate|].
  assert (Hd : is_space d = false) by (eapply trimStart_head; eassumption).
  rewrite trimEnd_cons in H by assumption. now injection H as <- _.
Qed.

Lemma trim_last (s : jsstring) (c : ascii) (r : jsstring) :
  trim s = r ++ [c] -> is_space c = false.
Proof. unfold trim. apply trimEnd_last. Qed.

(** A string that neither starts nor ends with white space is its own trim. *)
Lemma trim_fixed (s : jsstring) :
  (forall c r, s = c :: r -> is_space c = false) ->
  (forall c r, s = r ++ [c] -> is_space c = false) ->
  trim s = s.
Proof.
  intros Hh Hl. unfold trim. destruct s as [|c r]; [reflexivity|].
  rewrite trimStart_fixed by eauto.
  destruct (exists_last (l := c :: r)) as (r' & d & E); [discriminate|].
  rewrite E. apply trimEnd_fixed. eauto.
Qed.

Lemma trim_idempotent (s : jsstring) : trim (trim s) = trim s.
Proof.
  apply trim_fixed; intros c r H; [eapply trim_head | eapply trim_last]; eassumption.
Qed.

Lemma trim_parts (s : jsstring) :
  exists before after, s = before ++ trim s ++ after.
Proof.
  unfold trim. destruct (trimStart_suffix s) as (sp & H & _).
  destruct (trimEnd_prefix (trimStart s)) as (sp' & H' & _).
  exists sp, sp'. now rewrite <- H'.
Qed.

Lemma trim_In (s : jsstring) (c : ascii) : In c (trim s) -> In c s.
Proof.
  destruct (trim_parts s) as (a & b & H). intros Hc. rewrite H.
  apply in_or_app. right. apply in_or_app. now left.
Qed.

Lemma trim_nonempty_cons (c : ascii) (r : jsstring) :
  is_space c = false -> exists r', trim (c :: r) = c :: r'.
Proof.
  intros H. unfold trim. rewrite trimStart_fixed, trimEnd_cons by assumption. eauto.
Qed.

Example trim_example : trim "  dir /a	 " = "dir /a".
Proof. reflexivity. Qed.

(** *** Scanning *)

(** The fuel of a scan is enough: the chunks cover the whole text. *)
Lemma scanFrom_complete (re : jsstring -> option nat) (fuel : nat) :
  forall s, length s <= fuel -> flat_map chunkText (scanFrom re fuel s) = s.
Proof.
  induction fuel as [|fuel IH]; intros s L.
  - destruct s; [reflexivity | simpl in L; lia].
  - destruct s as [|c r]; [reflexivity|]. cbn [scanFrom].
    destruct (re (c :: r)) as [[|n]|]; cbn [flat_map chunkText].
    + cbn [app]. f_equal. apply IH. simpl in L. lia.
    + rewrite IH by (rewrite length_skipn; simpl in *; lia). apply firstn_skipn.
    + cbn [app]. f_equal. apply IH. simpl in L. lia.
Qed.

Lemma scan_complete (re : jsstring -> option nat) (s : jsstring) :
  flat_map chunkText (scan re s) = s.
Proof. apply scanFrom_complete. lia. Qed.

End StringFacts.

(** ** The repetition collapser *)

Section Collapser.

Lemma halves_of_double (h : jsstring) :
  length (h ++ h) mod 2 = 0 /\ length (h ++ h) / 2 = length h.
Proof.
  rewrite length_app. replace (length h + length h) with (length h * 2) by lia.
  split; [apply Nat.Div0.mod_mul | apply Nat.div_mul; lia].
Qed.

Lemma collapse_double (s h : jsstring) :
  trim s = h ++ h -> removeCommandRepetitions s = h.
Proof.
  intros E. unfold removeCommandRepetitions. rewrite E.
  destruct (halves_of_double h) as [M D]. rewrite M, D. simpl.
  rewrite firstn_app, skipn_app, Nat.sub_diag, firstn_all, skipn_all. simpl.
  rewrite !app_nil_r. now rewrite eqb_refl.
Qed.

Lemma collapse_other (s : jsstring) :
  (forall h, trim s <> h ++ h) -> removeCommandRepetitions s = trim s.
Proof.
  intros N. unfold removeCommandRepetitions.
  destruct (negb (length (trim s) mod 2 =? 0)); [reflexivity|].
  destruct (eqb _ _) eqn:E; [|reflexivity].
  apply eqb_eq in E. exfalso. apply (N (firstn (length (trim s) / 2) (trim s))).
  rewrite E at 2. symmetry. apply firstn_skipn.
Qed.

Lemma double_dec (t : jsstring) : (exists h, t = h ++ h) \/ (forall h, t <> h ++ h).
Proof.
  destruct (list_eq_dec ascii_dec (firstn (length t / 2) t) (skipn (length t / 2) t)) as [E|N].
  - left. exists (firstn (length t / 2) t). rewrite E at 2. symmetry. apply firstn_skipn.
  - right. intros h ->. apply N. destruct (halves_of_double h) as [_ ->].
    rewrite firstn_app, skipn_app, Nat.sub_diag, firstn_all, skipn_all. simpl.
    now rewrite !app_nil_r.
Qed.

(** The half of a doubled trimmed string is trimmed as well. *)
Lemma half_trimmed (s h : jsstring) : trim s = h ++ h -> trim h = h.
Proof.
  intros E. apply trim_fixed.
  - intros c r ->. apply (trim_head s c (r ++ c :: r)). exact E.
  - intros c r ->. apply (trim_last s c ((r ++ [c]) ++ r)).
    rewrite E. now rewrite <- !app_assoc.
Qed.

Lemma collapse_trimmed (s : jsstring) :
  trim (removeCommandRepetitions s) = removeCommandRepetitions s.
Proof.
  destruct (double_dec (trim s)) as [[h E]|N].
  - rewrite (collapse_double s h E). eapply half_trimmed; eassumption.
  - rewrite (collapse_other s N). apply trim_idempotent.
Qed.

End Collapser.

(** C5, as the code has it.  The collapser trims its argument first.  When
    the trimmed text is some string written twice it returns that string,
    and otherwise the trimmed text, which is the argument itself when that
    has no white space at either end.  Collapsing a second time changes
    nothing exactly when the first result is not again a non-empty string
    written twice. *)
Theorem removeCommandRepetitions_collapses (s : jsstring) :
  (forall h, trim s = h ++ h -> removeCommandRepetitions s = h) /\
  ((forall h, trim s <> h ++ h) -> removeCommandRepetitions s = trim s) /\
  (removeCommandRepetitions (removeCommandRepetitions s) = removeCommandRepetitions s
   <-> forall h, h <> [] -> removeCommandRepetitions s <> h ++ h).
Proof.
  split; [intros h; apply collapse_double|].
  split; [apply collapse_other|].
  pose proof (collapse_trimmed s) as T.
  set (r := removeCommandRepetitions s) in *. split.
  - intros I h Hh E.
    rewrite (collapse_double r h) in I by congruence.
    apply (f_equal (@length _)) in I. rewrite E, length_app in I.
    destruct h; [congruence | simpl in I; lia].
  - intros N. destruct (double_dec (trim r)) as [[h E]|O].
    + rewrite (collapse_double r h E). rewrite T in E.
      destruct h as [|c h]; [now rewrite E|].
      exfalso. apply (N (c :: h)); [discriminate | assumption].
    + now rewrite (collapse_other r O).
Qed.

Lemma removeCommandRepetitions_collapses_witness :
  removeCommandRepetitions " abab " = "ab" /\
  removeCommandRepetitions "abc" = "abc" /\
  removeCommandRepetitions (removeCommandRepetitions "abab") =
    removeCommandRepetitions "abab".
Proof.
  split; [|split].
  - apply (proj1 (removeCommandRepetitions_collapses " abab ") (lit "ab")).
    reflexivity.
  - apply (proj1 (proj2 (removeCommandRepetitions_collapses "abc"))).
    intros h E. apply (f_equal (@length _)) in E. rewrite length_app in E.
    simpl in E. lia.
  - apply (proj2 (proj2 (proj2 (removeCommandRepetitions_collapses "abab")))).
    intros h _ E. change (removeCommandRepetitions "abab") with (lit "ab") in E.
    destruct h as [|x [|y h]]; try discriminate E.
    + cbv in E. congruence.
    + apply (f_equal (@length _)) in E. rewrite length_app in E.
      simpl in E. lia.
Defined.

(** C5 as it is stated fails: a string with white space at an end is not
    returned unchanged, and collapsing [aaaa] twice gives [a], not [aa]. *)
Lemma collapser_not_as_specified :
  ~ collapserAsSpecified " ab" /\ ~ collapserAsSpecified "aaaa".
Proof.
  split.
  - intros (_ & U & _). assert (E : removeCommandRepetitions " ab" = lit " ab").
    { apply U. intros (_ & Ev & _). discriminate Ev. }
    discriminate E.
  - intros (_ & _ & I). discriminate I.
Qed.

(** ** The response extractor *)

Section Extractor.

Lemma space_LF : is_space LF = true.
Proof. reflexivity. Qed.

Lemma space_CR : is_space CR = true.
Proof. reflexivity. Qed.

(** The first line of a text that starts with a character other than white
    space starts with that character. *)
Lemma splitLines_head (c : ascii) (r : jsstring) :
  is_space c = false -> exists h t, splitLines (c :: r) = (c :: h) :: t.
Proof.
  intros H. cbn [splitLines].
  destruct (Ascii.eqb_spec c LF) as [->|_]; [rewrite space_LF in H; discriminate|].
  destruct (Ascii.eqb_spec c CR) as [->|_]; [rewrite space_CR in H; discriminate|].
  destruct (splitLines r); eauto.
Qed.

Lemma splitLines_no_LF_bounded (n : nat) :
  forall s line, length s <= n -> In line (splitLines s) -> ~ In LF line.
Proof.
  induction n as [|n IH]; intros s line L.
  - destruct s; [|simpl in L; lia]. intros [<-|[]] [].
  - destruct s as [|c r]; [intros [<-|[]] []|].
    simpl in L.
    assert (K : In line (match splitLines r with
                         | h :: t => (c :: h) :: t
                         | [] => [[c]]
                         end) -> c <> LF -> ~ In LF line).
    { intros I N. destruct (splitLines r) as [|h t] eqn:E.
      - destruct I as [<-|[]]. intros [?|[]]. congruence.
      - destruct I as [<-|I].
        + intros [?|J]; [congruence|].
          apply (IH r h); [lia | rewrite E; now left | assumption].
        + apply (IH r line); [lia | rewrite E; now right]. }
    cbn [splitLines].
    destruct (Ascii.eqb_spec c LF) as [->|N].
    { intros [<-|I]; [intros [] | apply (IH r); [lia | assumption]]. }
    destruct (Ascii.eqb_spec c CR) as [->|_]; [|intros I; now apply K].
    destruct r as [|d r']; [intros I; now apply K|].
    destruct (Ascii.eqb_spec d LF) as [->|_]; [|intros I; now apply K].
    intros [<-|I]; [intros [] | apply (IH r'); [simpl in L; lia | assumption]].
Qed.

Lemma splitLines_no_LF (s line : jsstring) :
  In line (splitLines s) -> ~ In LF line.
Proof. apply (splitLines_no_LF_bounded (length s)). lia. Qed.

Lemma collapse_nonempty (s : jsstring) :
  trim s <> [] -> removeCommandRepetitions s <> [].
Proof.
  intros N. destruct (double_dec (trim s)) as [[h E]|O].
  - rewrite (collapse_double s h E). intros ->. now apply N.
  - now rewrite (collapse_other s O).
Qed.

Lemma collapse_In (s : jsstring) (c : ascii) :
  In c (removeCommandRepetitions s) -> In c s.
Proof.
  intros I. apply trim_In. destruct (double_dec (trim s)) as [[h E]|O].
  - rewrite (collapse_double s h E) in I. rewrite E. apply in_or_app. now left.
  - now rewrite (collapse_other s O) in I.
Qed.

(** With a content that is not blank the first trimmed line is not empty, so
    that [find] stops at it. *)
Lemma first_line_found (raw : jsstring) :
  trim raw <> [] ->
  exists line,
    find (fun line => 0 <? length line) (map trim (splitLines (trim raw))) = Some line /\
    line <> [] /\ trim line = line /\ ~ In LF line.
Proof.
  intros N. destruct (trim raw) as [|c r] eqn:E; [congruence|].
  assert (Hc : is_space c = false) by (eapply trim_head; eassumption).
  destruct (splitLines_head c r Hc) as (h & t & Sp).
  destruct (trim_nonempty_cons c h Hc) as (h' & T).
  exists (c :: h'). rewrite Sp. cbn [map find]. rewrite T.
  cbn [length Nat.ltb Nat.leb].
  split; [reflexivity|]. split; [discriminate|]. split.
  - rewrite <- T. apply trim_idempotent.
  - intros I. rewrite <- T in I. apply trim_In in I. revert I.
    apply (splitLines_no_LF (c :: r)). rewrite Sp. now left.
Qed.

End Extractor.

(** C10, as the code has it.  When the content is present and not blank the
    extractor finds a first line of non-zero trimmed length and returns a
    non-empty command without a line feed, hence without a line break as the
    extractor splits them.  [INVALID_RESPONSE] is raised exactly when the
    content is absent or is the empty string, always by the first check: the
    branch [No valid command found in AI response] is never taken. *)
Theorem validateResponse_extracts (data : option OpenRouterResponse) :
  (forall raw,
      contentPath data = Some raw -> trim raw <> [] ->
      exists line,
        find (fun line => 0 <? length line) (map trim (splitLines (trim raw))) = Some line /\
        line <> [] /\
        validateResponse data = Ok (removeCommandRepetitions line) /\
        removeCommandRepetitions line <> [] /\
        ~ In LF (removeCommandRepetitions line)) /\
  (forall message,
      validateResponse data = Throw (AIError message "INVALID_RESPONSE") ->
      message = lit "Invalid or empty response from AI" /\
      (contentPath data = None \/ contentPath data = Some [])) /\
  (contentPath data = None \/ contentPath data = Some [] ->
   validateResponse data =
     Throw (AIError "Invalid or empty response from AI" "INVALID_RESPONSE")).
Proof.
  unfold validateResponse. split; [|split].
  - intros raw -> N. destruct (first_line_found raw N) as (line & F & NE & T & NL).
    exists line. rewrite F. destruct raw as [|c r]; [now elim N|].
    destruct (trim (c :: r)); [now elim N|].
    split; [reflexivity|]. split; [assumption|]. split; [reflexivity|]. split.
    + apply collapse_nonempty. now rewrite T.
    + intros I. now apply collapse_In in I.
  - intros message. destruct (contentPath data) as [[|c r]|] eqn:P.
    + intros [= <-]. auto.
    + assert (N : trim (c :: r) <> [] \/ trim (c :: r) = []).
      { destruct (trim (c :: r)); [now right | left; discriminate]. }
      destruct N as [N|N].
      * destruct (first_line_found _ N) as (line & F & _). rewrite F.
        destruct (trim (c :: r)); [now elim N | discriminate].
      * rewrite N. discriminate.
    + intros [= <-]. auto.
  - intros [->| ->]; reflexivity.
Qed.

Lemma validateResponse_extracts_witness :
  exists line,
    validateResponse (Some (completion "  dir dir  ")) = Ok (removeCommandRepetitions line) /\
    removeCommandRepetitions line <> [].
Proof.
  destruct (proj1 (validateResponse_extracts (Some (completion "  dir dir  ")))
                  (lit "  dir dir  ") eq_refl) as (line & _ & _ & V & N & _).
  - discriminate.
  - exists line. split; assumption.
Defined.

(** C10 as it is stated fails: a content that is present but empty raises
    [INVALID_RESPONSE] too. *)
Lemma validateResponse_empty_content :
  contentPath (Some (completion "")) = Some [] /\
  validateResponse (Some (completion "")) =
    Throw (AIError "Invalid or empty response from AI" "INVALID_RESPONSE").
Proof. split; reflexivity. Qed.

(** A carriage return that no line feed follows does not end a line. *)
Example validateResponse_lone_carriage_return :
  validateResponse (Some (completion (lit "dir" ++ [CR] ++ lit "cls"))) =
    Ok (lit "dir" ++ [CR] ++ lit "cls") /\
  validateResponse (Some (completion (lit "dir" ++ [CR; LF] ++ lit "cls"))) =
    Ok (lit "dir").
Proof. split; vm_compute; reflexivity. Qed.

(** ** The normaliser: URLs *)

Section Urls.

Lemma includes_app_l (a b p : jsstring) :
  includes (a ++ b) p = false -> includes a p = false.
Proof.
  intros H. destruct (includes a p) eqn:E; [|reflexivity].
  apply includes_spec in E as (pre & post & ->).
  rewrite <- H. symmetry. apply includes_spec.
  exists pre, (post ++ b). now rewrite <- !app_assoc.
Qed.

Lemma includes_cons (c : ascii) (s p : jsstring) :
  includes (c :: s) p = false -> includes s p = false.
Proof.
  intros H. destruct (includes s p) eqn:E; [|reflexivity].
  apply includes_spec in E as (pre & post & ->).
  rewrite <- H. symmetry. apply includes_spec. now exists (c :: pre), post.
Qed.

Lemma startsWith_app (a b s : jsstring) :
  startsWith (a ++ b) s = true -> startsWith a s = true.
Proof.
  rewrite !startsWith_spec. intros [tail ->]. exists (b ++ tail). now rewrite app_assoc.
Qed.

Lemma getSubstitution_plain (matched before after replacement : jsstring) :
  ~ In "$"%char replacement ->
  getSubstitution matched before after replacement = replacement.
Proof.
  induction replacement as [|c r IH]; intros N; [reflexivity|].
  cbn [getSubstitution]. destruct (Ascii.eqb_spec c "$") as [->|_].
  - exfalso. apply N. now left.
  - f_equal. apply IH. intros I. apply N. now right.
Qed.

(** In front of a placeholder, text without [__URL] leaves no room for an
    earlier occurrence of the placeholder. *)
Lemma no_early_placeholder (P M : jsstring) (index j : nat) :
  includes P "__URL" = false -> j < length P ->
  startsWith (placeholder index) (skipn j (P ++ placeholder index ++ M)) = false.
Proof.
  intros N J. destruct (startsWith _ _) eqn:E; [|reflexivity]. exfalso.
  rewrite skipn_app in E. replace (j - length P) with 0 in E by lia.
  cbn [skipn] in E. unfold placeholder in E. rewrite <- !app_assoc in E.
  pose proof (startsWith_app _ _ _ E) as S0.
  assert (D : length (skipn j P) = length P - j) by apply length_skipn.
  assert (I : includes P "__URL" = true); [|congruence].
  apply includes_spec. apply startsWith_spec in S0 as [tail S0].
  destruct (skipn j P) as [|a [|b [|c [|d [|e rest]]]]] eqn:K;
    [simpl in D; lia | cbv in S0; congruence .. |].
  exists (firstn j P), rest. rewrite <- (firstn_skipn j P) at 1. f_equal.
  rewrite K. cbv [lit list_ascii_of_string app] in S0 |- *. congruence.
Qed.

Lemma replaceFirst_placeholder (P M url : jsstring) (index : nat) :
  includes P "__URL" = false -> ~ In "$"%char url ->
  replaceFirst (placeholder index) url (P ++ placeholder index ++ M) = P ++ url ++ M.
Proof.
  intros N D. unfold replaceFirst.
  destruct (indexOf_found (placeholder index) P M) as (i & E & L).
  rewrite E. assert (i = length P) as ->.
  { destruct (Nat.eq_dec i (length P)) as [|Q]; [assumption|]. exfalso.
    pose proof (no_early_placeholder P M index i N ltac:(lia)) as F.
    apply indexOf_app in E as (tail & E & _).
    rewrite E in F. assert (T : startsWith (placeholder index) (placeholder index ++ tail) = true)
      by (apply startsWith_spec; eauto). congruence. }
  rewrite firstn_app, Nat.sub_diag, firstn_all, app_nil_r. cbn [firstn].
  rewrite getSubstitution_plain by assumption.
  rewrite skipn_app, skipn_all2 by lia.
  replace (length P + length (placeholder index) - length P)
    with (length (placeholder index)) by lia.
  rewrite skipn_app, skipn_all, Nat.sub_diag. reflexivity.
Qed.

Lemma storeUrls_skipped (c : ascii) (chunks : list Chunk) (urls : list jsstring) :
  storeUrls (Skipped c :: chunks) urls =
  (c :: fst (storeUrls chunks urls), snd (storeUrls chunks urls)).
Proof. cbn [storeUrls]. now destruct (storeUrls chunks urls). Qed.

Lemma storeUrls_matched (m : jsstring) (chunks : list Chunk) (urls : list jsstring) :
  storeUrls (Matched m :: chunks) urls =
  (placeholder (length urls) ++ fst (storeUrls chunks (urls ++ [m])),
   snd (storeUrls chunks (urls ++ [m]))).
Proof.
  cbn [storeUrls]. destruct (storeUrls chunks (urls ++ [m])).
  rewrite length_app. cbn [length fst snd].
  now replace (length urls + 1 - 1) with (length urls) by lia.
Qed.

(** Putting the stored URLs back undoes the masking, when the text has no
    [__URL] in it and its URLs no dollar sign. *)
Lemma restore_stored (fuel : nat) :
  forall (s P : jsstring) (urls : list jsstring),
    length s <= fuel ->
    includes (P ++ s) "__URL" = false ->
    (forall u, In u (matches (scanFrom url_re fuel s)) -> ~ In "$"%char u) ->
    exists new,
      snd (storeUrls (scanFrom url_re fuel s) urls) = urls ++ new /\
      restoreUrls new (length urls)
                  (P ++ fst (storeUrls (scanFrom url_re fuel s) urls)) = P ++ s.
Proof.
  induction fuel as [|fuel IH]; intros s P urls L N D.
  - destruct s; [|simpl in L; lia]. exists []. simpl. now rewrite app_nil_r.
  - destruct s as [|c r]; [exists []; simpl; now rewrite app_nil_r|].
    cbn [scanFrom] in *.
    assert (Skip : (forall u, In u (matches (Skipped c :: scanFrom url_re fuel r)) ->
                              ~ In "$"%char u) ->
             exists new,
               snd (storeUrls (Skipped c :: scanFrom url_re fuel r) urls) = urls ++ new /\
               restoreUrls new (length urls)
                 (P ++ fst (storeUrls (Skipped c :: scanFrom url_re fuel r) urls)) =
               P ++ c :: r).
    { intros D'. destruct (IH r (P ++ [c]) urls) as (new & E1 & E2).
      - simpl in L. lia.
      - now rewrite <- app_assoc.
      - exact D'.
      - exists new. rewrite storeUrls_skipped. cbn [fst snd].
        split; [assumption|]. rewrite <- !app_assoc in E2. exact E2. }
    revert D. destruct (url_re (c :: r)) as [[|n]|]; [exact Skip| |exact Skip].
    assert (Q : c :: r = firstn (S n) (c :: r) ++ skipn (S n) (c :: r))
      by (symmetry; apply firstn_skipn).
    assert (K : length (skipn (S n) (c :: r)) <= fuel)
      by (rewrite length_skipn; simpl in *; lia).
    revert Q K. generalize (firstn (S n) (c :: r)) as u.
    generalize (skipn (S n) (c :: r)) as rest. intros rest u Q K D.
    destruct (IH rest (P ++ u) (urls ++ [u])) as (new & E1 & E2).
    + exact K.
    + now rewrite <- app_assoc, <- Q.
    + intros v I. apply D. now right.
    + exists (u :: new). rewrite storeUrls_matched. cbn [fst snd].
      split; [now rewrite E1, <- app_assoc|].
      cbn [restoreUrls]. rewrite replaceFirst_placeholder.
      * rewrite length_app in E2. cbn [length] in E2.
        replace (length urls + 1) with (S (length urls)) in E2 by lia.
        rewrite Q. rewrite <- !app_assoc in E2. exact E2.
      * eapply includes_app_l. eassumption.
      * apply D. now left.
Qed.

Lemma splitOn_nonempty (sep : ascii -> bool) (s : jsstring) : splitOn sep s <> [].
Proof.
  destruct s as [|c r]; simpl; [discriminate|].
  destruct (sep c); [discriminate|]. destruct (splitOn sep r); discriminate.
Qed.

Lemma join_splitOn (sep : ascii) (s : jsstring) :
  join [sep] (splitOn (Ascii.eqb sep) s) = s.
Proof.
  induction s as [|c r IH]; [reflexivity|]. cbn [splitOn].
  pose proof (splitOn_nonempty (Ascii.eqb sep) r) as NE.
  destruct (Ascii.eqb_spec sep c) as [->|_].
  - destruct (splitOn (Ascii.eqb c) r) as [|h t]; [congruence|].
    cbn [join app]. now rewrite <- IH.
  - destruct (splitOn (Ascii.eqb sep) r) as [|h t]; [congruence|].
    rewrite <- IH. destruct t; reflexivity.
Qed.

Lemma collectParameters_all (baseCommand : jsstring) (parts : list jsstring) :
  (forall part, In part parts -> toLowerCase part <> toLowerCase baseCommand) ->
  collectParameters baseCommand parts = parts.
Proof.
  induction parts as [|p parts IH]; intros H; [reflexivity|]. simpl.
  destruct (eqb (toLowerCase p) (toLowerCase baseCommand)) eqn:E.
  - apply eqb_eq in E. exfalso. apply (H p); [now left | assumption].
  - f_equal. apply IH. intros part I. apply H. now right.
Qed.

(** *** Where a stored URL stands in the text *)

Lemma takeWhile_split (f : ascii -> bool) (s : jsstring) :
  exists rest,
    s = takeWhile f s ++ rest /\
    (rest = [] \/ exists c r, rest = c :: r /\ f c = false).
Proof.
  induction s as [|c r (rest & E & H)]; simpl.
  - exists []. auto.
  - destruct (f c) eqn:F.
    + exists rest. split; [simpl; now rewrite <- E | assumption].
    + exists (c :: r). split; [reflexivity | right; eauto].
Qed.

(** A match of the URL pattern is a scheme, the run of characters other than
    white space behind it, and nothing more. *)
Lemma url_re_shape (s : jsstring) (n : nat) :
  url_re s = Some n ->
  exists scheme run rest,
    (scheme = lit "http:/" \/ scheme = lit "https:/") /\
    s = (scheme ++ "/"%char :: run) ++ rest /\
    n = length (scheme ++ "/"%char :: run) /\
    (rest = [] \/ exists c r, rest = c :: r /\ is_space c = true).
Proof.
  unfold url_re.
  assert (K : forall scheme0 scheme,
             scheme0 = scheme ++ lit "/" ->
             match stripPrefix scheme0 s with
             | Some tail =>
                 match takeWhile (fun c => negb (is_space c)) tail with
                 | [] => None
                 | run => Some (length scheme0 + length run)
                 end
             | None => None
             end = Some n ->
             exists run rest,
               s = (scheme ++ "/"%char :: run) ++ rest /\
               n = length (scheme ++ "/"%char :: run) /\
               (rest = [] \/ exists c r, rest = c :: r /\ is_space c = true)).
  { intros scheme0 scheme -> H.
    destruct (stripPrefix _ s) as [tail|] eqn:E; [|discriminate].
    apply stripPrefix_spec in E.
    destruct (takeWhile_split (fun c => negb (is_space c)) tail) as (rest & T & R).
    set (run := takeWhile _ tail) in *.
    assert (n = length (scheme ++ lit "/") + length run) as ->
      by (destruct run; [discriminate | congruence]).
    exists run, rest. split; [|split].
    - rewrite E, T. rewrite <- !app_assoc. reflexivity.
    - rewrite !length_app. simpl. lia.
    - destruct R as [|(c & r & -> & F)]; [now left | right].
      exists c, r. split; [reflexivity|]. now apply negb_false_iff in F. }
  destruct (match stripPrefix "https://" s with Some _ => _ | None => _ end) eqn:A.
  - intros [= <-]. destruct (K (lit "https://") (lit "https:/") eq_refl A) as (run & rest & H).
    exists (lit "https:/"), run, rest. tauto.
  - intros B. destruct (K (lit "http://") (lit "http:/") eq_refl B) as (run & rest & H).
    exists (lit "http:/"), run, rest. tauto.
Qed.

Lemma matches_occurrence (fuel : nat) :
  forall s u,
    In u (matches (scanFrom url_re fuel s)) ->
    exists pre post n,
      s = pre ++ u ++ post /\ url_re (u ++ post) = Some n /\ u = firstn n (u ++ post).
Proof.
  induction fuel as [|fuel IH]; intros s u; [intros []|].
  destruct s as [|c r]; [intros []|]. cbn [scanFrom].
  assert (Skip : In u (matches (Skipped c :: scanFrom url_re fuel r)) ->
                 exists pre post n,
                   c :: r = pre ++ u ++ post /\ url_re (u ++ post) = Some n /\
                   u = firstn n (u ++ post)).
  { intros I. destruct (IH r u I) as (pre & post & n & -> & H).
    now exists (c :: pre), post, n. }
  destruct (url_re (c :: r)) as [[|n]|] eqn:E; [exact Skip| |exact Skip].
  unfold matches. cbn [flat_map]. fold (matches (scanFrom url_re fuel (skipn (S n) (c :: r)))).
  intros [<-|I].
  - exists [], (skipn (S n) (c :: r)), (S n).
    cbn [app]. rewrite firstn_skipn. split; [reflexivity|]. split; [assumption|reflexivity].
  - destruct (IH _ u I) as (pre & post & m & Q & H).
    exists (firstn (S n) (c :: r) ++ pre), post, m. split; [|assumption].
    rewrite <- app_assoc, <- Q. symmetry. apply firstn_skipn.
Qed.

Lemma storeUrls_snd (chunks : list Chunk) :
  forall urls, snd (storeUrls chunks urls) = urls ++ matches chunks.
Proof.
  induction chunks as [|[m|c] chunks IH]; intros urls.
  - simpl. now rewrite app_nil_r.
  - rewrite storeUrls_matched. cbn [snd]. rewrite IH, <- app_assoc. reflexivity.
  - rewrite storeUrls_skipped. cbn [snd]. apply IH.
Qed.

(** *** The masking and the words *)

Lemma stripPrefix_cut (p x rest : jsstring) :
  ~ In " "%char p ->
  stripPrefix p (x ++ " "%char :: rest) =
  option_map (fun tail => tail ++ " "%char :: rest) (stripPrefix p x).
Proof.
  revert x. induction p as [|a p IH]; intros x N; [reflexivity|].
  destruct x as [|b x]; cbn [app stripPrefix].
  - destruct (Ascii.eqb_spec a " ") as [->|_]; [|reflexivity].
    exfalso. apply N. now left.
  - destruct (Ascii.eqb a b); [|reflexivity]. apply IH. intros I. apply N. now right.
Qed.

Lemma takeWhile_cut (tail rest : jsstring) :
  takeWhile (fun c => negb (is_space c)) (tail ++ " "%char :: rest) =
  takeWhile (fun c => negb (is_space c)) tail.
Proof.
  induction tail as [|c tail IH]; [reflexivity|]. cbn [app takeWhile].
  destruct (negb (is_space c)); [now f_equal | reflexivity].
Qed.

(** A match of the URL pattern does not look behind the next space. *)
Lemma url_re_cut (x rest : jsstring) : url_re (x ++ " "%char :: rest) = url_re x.
Proof.
  unfold url_re. rewrite !stripPrefix_cut by (vm_compute; intuition congruence).
  destruct (stripPrefix "https://" x) as [t1|], (stripPrefix "http://" x) as [t2|];
    cbn [option_map]; now rewrite ?takeWhile_cut.
Qed.

Lemma url_re_bound (s : jsstring) (n : nat) : url_re s = Some n -> n <= length s.
Proof.
  intros U. apply url_re_shape in U as (scheme & run & rest & _ & -> & -> & _).
  rewrite (length_app (scheme ++ _)). lia.
Qed.

Lemma scanFrom_fuel (f1 : nat) :
  forall f2 s, length s <= f1 -> length s <= f2 ->
               scanFrom url_re f1 s = scanFrom url_re f2 s.
Proof.
  induction f1 as [|f1 IH]; intros f2 s L1 L2.
  - destruct s; [now destruct f2 | simpl in L1; lia].
  - destruct s as [|c r]; [now destruct f2|].
    destruct f2 as [|f2]; [simpl in L2; lia|]. cbn [scanFrom].
    destruct (url_re (c :: r)) as [[|n]|].
    + f_equal. apply IH; simpl in *; lia.
    + f_equal. apply IH; rewrite length_skipn; simpl in *; lia.
    + f_equal. apply IH; simpl in *; lia.
Qed.

Lemma scan_cons_match (c : ascii) (r : jsstring) (n : nat) :
  url_re (c :: r) = Some (S n) ->
  scan url_re (c :: r) =
  Matched (firstn (S n) (c :: r)) :: scan url_re (skipn (S n) (c :: r)).
Proof.
  intros U. unfold scan. cbn [length scanFrom]. rewrite U. f_equal.
  apply scanFrom_fuel; rewrite ?length_skipn; simpl; lia.
Qed.

Lemma scan_cons_skip (c : ascii) (s : jsstring) :
  url_re (c :: s) = None \/ url_re (c :: s) = Some 0 ->
  scan url_re (c :: s) = Skipped c :: scan url_re s.
Proof. unfold scan. cbn [length scanFrom]. now intros [->| ->]. Qed.

Lemma scan_cut_bounded (n : nat) :
  forall x rest,
    length x <= n ->
    scan url_re (x ++ " "%char :: rest) =
    scan url_re x ++ Skipped " " :: scan url_re rest.
Proof.
  induction n as [|n IH]; intros x rest L.
  - destruct x; [|simpl in L; lia]. now apply scan_cons_skip; left.
  - destruct x as [|c x]; [now apply scan_cons_skip; left|].
    pose proof (url_re_cut (c :: x) rest) as U. cbn [app] in *.
    destruct (url_re (c :: x)) as [[|m]|] eqn:V.
    + rewrite !scan_cons_skip by auto. cbn [app]. f_equal. apply IH. simpl in L. lia.
    + rewrite (scan_cons_match _ _ _ U), (scan_cons_match _ _ _ V).
      pose proof (url_re_bound _ _ V) as B.
      change (c :: x ++ " "%char :: rest) with ((c :: x) ++ " "%char :: rest).
      rewrite firstn_app, skipn_app.
      replace (S m - length (c :: x)) with 0 by lia. cbn [firstn skipn].
      rewrite app_nil_r. cbn [app]. f_equal.
      apply IH. rewrite length_skipn. simpl in *. lia.
    + rewrite !scan_cons_skip by auto. cbn [app]. f_equal. apply IH. simpl in L. lia.
Qed.

Lemma scan_cut (x rest : jsstring) :
  scan url_re (x ++ " "%char :: rest) =
  scan url_re x ++ Skipped " " :: scan url_re rest.
Proof. apply (scan_cut_bounded (length x)). lia. Qed.

Lemma storeUrls_app (c1 c2 : list Chunk) :
  forall urls,
    storeUrls (c1 ++ c2) urls =
    (fst (storeUrls c1 urls) ++ fst (storeUrls c2 (snd (storeUrls c1 urls))),
     snd (storeUrls c2 (snd (storeUrls c1 urls)))).
Proof.
  induction c1 as [|[m|c] c1 IH]; intros urls; cbn [app].
  - cbn [storeUrls fst snd app]. now destruct (storeUrls c2 urls).
  - rewrite !storeUrls_matched, IH. cbn [fst snd]. now rewrite <- app_assoc.
  - rewrite !storeUrls_skipped, IH. reflexivity.
Qed.

Lemma mask_cut (x rest : jsstring) (urls : list jsstring) :
  fst (storeUrls (scan url_re (x ++ " "%char :: rest)) urls) =
  fst (storeUrls (scan url_re x) urls) ++
  " "%char :: fst (storeUrls (scan url_re rest) (urls ++ matchAll url_re x)).
Proof.
  rewrite scan_cut, storeUrls_app. cbn [fst]. rewrite storeUrls_skipped. cbn [fst].
  now rewrite storeUrls_snd.
Qed.

Lemma matchAll_cut (x rest : jsstring) :
  matchAll url_re (x ++ " "%char :: rest) = matchAll url_re x ++ matchAll url_re rest.
Proof.
  unfold matchAll, matches. rewrite scan_cut, flat_map_app. reflexivity.
Qed.

Lemma digits_no_space (d : Decimal.uint) :
  ~ In " "%char (list_ascii_of_string (NilEmpty.string_of_uint d)).
Proof.
  induction d; simpl; try (intros [H|H]; [discriminate H | auto]). intros [].
Qed.

Lemma placeholder_no_space (index : nat) : ~ In " "%char (placeholder index).
Proof.
  unfold placeholder, ofNat, lit. rewrite !in_app_iff. intros [H|[H|H]].
  - vm_compute in H. intuition congruence.
  - revert H. unfold NilZero.string_of_uint.
    destruct (Nat.to_uint index) eqn:E; try apply digits_no_space.
    vm_compute. intuition congruence.
  - vm_compute in H. intuition congruence.
Qed.

Lemma scanFrom_skipped_In (fuel : nat) :
  forall s c, In (Skipped c) (scanFrom url_re fuel s) -> In c s.
Proof.
  induction fuel as [|fuel IH]; intros s c; [intros []|].
  destruct s as [|d r]; [intros []|]. cbn [scanFrom].
  assert (Skip : In (Skipped c) (Skipped d :: scanFrom url_re fuel r) -> In c (d :: r)).
  { intros [[= ->]|I]; [now left | right; now apply IH]. }
  destruct (url_re (d :: r)) as [[|n]|]; [exact Skip| |exact Skip].
  intros [H|I]; [discriminate H|]. apply IH in I.
  rewrite <- (firstn_skipn (S n) (d :: r)). apply in_or_app. now right.
Qed.

Lemma storeUrls_no_space (chunks : list Chunk) :
  forall urls,
    (forall c, In (Skipped c) chunks -> c <> " "%char) ->
    ~ In " "%char (fst (storeUrls chunks urls)).
Proof.
  induction chunks as [|[m|c] chunks IH]; intros urls H.
  - intros [].
  - rewrite storeUrls_matched. cbn [fst]. rewrite in_app_iff. intros [I|I].
    + now apply placeholder_no_space in I.
    + revert I. apply IH. intros c I. apply H. now right.
  - rewrite storeUrls_skipped. cbn [fst]. intros [->|I].
    + now apply (H " "%char); [left|].
    + revert I. apply IH. intros d I. apply H. now right.
Qed.

Lemma mask_no_space (x : jsstring) (urls : list jsstring) :
  ~ In " "%char x -> ~ In " "%char (fst (storeUrls (scan url_re x) urls)).
Proof.
  intros N. apply storeUrls_no_space. intros c I ->.
  apply N. eapply scanFrom_skipped_In. eassumption.
Qed.

Lemma splitOn_cut (w r : jsstring) :
  ~ In " "%char w ->
  splitOn (Ascii.eqb " ") (w ++ " "%char :: r) = w :: splitOn (Ascii.eqb " ") r.
Proof.
  intros N. induction w as [|c w IH]; [reflexivity|]. cbn [app splitOn].
  destruct (Ascii.eqb_spec " " c) as [<-|_]; [exfalso; apply N; now left|].
  rewrite IH; [reflexivity|]. intros I. apply N. now right.
Qed.

Lemma splitOn_word (w : jsstring) :
  ~ In " "%char w -> splitOn (Ascii.eqb " ") w = [w].
Proof.
  intros N. induction w as [|c w IH]; [reflexivity|]. cbn [splitOn].
  destruct (Ascii.eqb_spec " " c) as [<-|_]; [exfalso; apply N; now left|].
  rewrite IH; [reflexivity|]. intros I. apply N. now right.
Qed.

Lemma splitOn_first (s : jsstring) :
  exists w, ~ In " "%char w /\ (s = w \/ exists r, s = w ++ " "%char :: r).
Proof.
  induction s as [|c s (w & N & H)].
  - exists []. split; [intros [] | now left].
  - destruct (Ascii.eqb_spec " " c) as [<-|Q].
    + exists []. split; [intros [] | right; now exists s].
    + exists (c :: w). split; [intros [I|I]; congruence|].
      destruct H as [->|[r ->]]; [now left | right; now exists r].
Qed.

(** The masked words are the words masked: the first words of the masked
    text make up the masked text of the first words. *)
Lemma masked_words (n : nat) :
  forall (t : jsstring) (urls : list jsstring) (k : nat),
    length t <= n ->
    join " " (firstn (S k) (splitOn (Ascii.eqb " ")
                                    (fst (storeUrls (scan url_re t) urls)))) =
    fst (storeUrls (scan url_re (join " " (firstn (S k) (splitOn (Ascii.eqb " ") t))))
                   urls) /\
    exists more,
      matchAll url_re t =
      matchAll url_re (join " " (firstn (S k) (splitOn (Ascii.eqb " ") t))) ++ more.
Proof.
  assert (Word : forall (w : jsstring) (urls : list jsstring) (k : nat),
             ~ In " "%char w ->
             join " " (firstn (S k) (splitOn (Ascii.eqb " ")
                                             (fst (storeUrls (scan url_re w) urls)))) =
             fst (storeUrls
                    (scan url_re (join " " (firstn (S k) (splitOn (Ascii.eqb " ") w))))
                    urls) /\
             exists more,
               matchAll url_re w =
               matchAll url_re (join " " (firstn (S k) (splitOn (Ascii.eqb " ") w)))
               ++ more).
  { intros w urls k N.
    rewrite (splitOn_word w N), (splitOn_word _ (mask_no_space w urls N)).
    cbn [firstn join]. rewrite !firstn_nil. cbn [join].
    split; [reflexivity | exists []; now rewrite app_nil_r]. }
  induction n as [|n IH]; intros t urls k L;
    destruct (splitOn_first t) as (w & N & [->|[r ->]]); try now apply Word.
  - rewrite length_app in L. simpl in L. lia.
  - rewrite mask_cut, (splitOn_cut w r N),
      (splitOn_cut _ _ (mask_no_space w urls N)).
    assert (Lr : length r <= n) by (rewrite length_app in L; simpl in L; lia).
    destruct k as [|k].
    + cbn [firstn join]. split; [reflexivity|].
      exists (matchAll url_re r). apply matchAll_cut.
    + destruct (IH r (urls ++ matchAll url_re w) k Lr) as (J & more & M).
      cbn [firstn].
      pose proof (splitOn_nonempty (Ascii.eqb " ") r) as NE1.
      pose proof (splitOn_nonempty (Ascii.eqb " ")
                    (fst (storeUrls (scan url_re r) (urls ++ matchAll url_re w)))) as NE2.
      destruct (splitOn (Ascii.eqb " ") r) as [|p1 l1]; [congruence|].
      destruct (splitOn (Ascii.eqb " ") (fst _)) as [|p2 l2]; [congruence|].
      cbn [firstn] in *.
      change (join " " (?a :: ?b :: ?l)) with (a ++ " "%char :: join " " (b :: l)).
      rewrite J, mask_cut. split; [reflexivity|].
      exists more. rewrite !matchAll_cut, M. now rewrite app_assoc.
Qed.

Lemma masked_length (n : nat) :
  forall (t : jsstring) (urls : list jsstring),
    length t <= n ->
    length (splitOn (Ascii.eqb " ") (fst (storeUrls (scan url_re t) urls))) =
    length (splitOn (Ascii.eqb " ") t).
Proof.
  induction n as [|n IH]; intros t urls L;
    destruct (splitOn_first t) as (w & N & [->|[r ->]]);
    try (now rewrite (splitOn_word w N), (splitOn_word _ (mask_no_space w urls N)));
    rewrite length_app in L; simpl in L; [lia|].
  rewrite mask_cut, (splitOn_cut w r N), (splitOn_cut _ _ (mask_no_space w urls N)).
  cbn [length]. f_equal. apply IH. lia.
Qed.

Lemma restoreUrls_app (l1 l2 : list jsstring) :
  forall index s,
    restoreUrls (l1 ++ l2) index s =
    restoreUrls l2 (index + length l1) (restoreUrls l1 index s).
Proof.
  induction l1 as [|u l1 IH]; intros index s; cbn [app restoreUrls length].
  - now rewrite Nat.add_0_r.
  - rewrite IH. f_equal. lia.
Qed.

Lemma restoreUrls_absent (l : list jsstring) :
  forall index s, includes s "__URL" = false -> restoreUrls l index s = s.
Proof.
  induction l as [|u l IH]; intros index s N; [reflexivity|]. cbn [restoreUrls].
  unfold replaceFirst. destruct (indexOf (placeholder index) s) as [i|] eqn:E.
  - exfalso. apply indexOf_app in E as (tail & E & _).
    assert (I : includes s "__URL" = true); [|congruence].
    apply includes_spec. exists (firstn i s), (ofNat index ++ lit "__" ++ tail).
    rewrite <- (firstn_skipn i s) at 1. rewrite E. unfold placeholder.
    now rewrite <- !app_assoc.
  - now apply IH.
Qed.

Lemma join_firstn_prefix (sep : jsstring) (l : list jsstring) :
  forall k, exists tail, join sep l = join sep (firstn (S k) l) ++ tail.
Proof.
  induction l as [|p [|q r] IH]; intros k.
  - now exists [].
  - exists []. cbn [firstn]. rewrite firstn_nil. now rewrite app_nil_r.
  - destruct k as [|k].
    + exists (sep ++ join sep (q :: r)). reflexivity.
    + destruct (IH k) as [tail E]. exists tail.
      change (firstn (S (S k)) (p :: q :: r)) with (p :: firstn (S k) (q :: r)).
      cbn [firstn] in *.
      change (join sep (p :: q :: ?l)) with (p ++ sep ++ join sep (q :: l)).
      rewrite E. now rewrite <- !app_assoc.
Qed.

Lemma collectParameters_prefix (baseCommand : jsstring) (parts : list jsstring) :
  collectParameters baseCommand parts =
  firstn (length (collectParameters baseCommand parts)) parts.
Proof.
  induction parts as [|p parts IH]; [reflexivity|]. cbn [collectParameters].
  destruct (eqb _ _); [reflexivity|]. cbn [length firstn]. now f_equal.
Qed.

(** *** The separator rewriting *)

Lemma fixSeparators_cons (before : jsstring) (c d : ascii) (r : jsstring) :
  fixSeparators before (c :: d :: r) =
  if Ascii.eqb c "/" && Ascii.eqb d "/" && negb (afterScheme before)
  then "\"%char :: fixSeparators (d :: c :: before) r
  else c :: fixSeparators (c :: before) (d :: r).
Proof. reflexivity. Qed.

(** The rewriting of a text goes through a cut in front of anything but a
    slash. *)
Lemma fixSeparators_app_bounded (n : nat) :
  forall pre before s,
    length pre <= n ->
    (forall r, s <> "/"%char :: r) ->
    fixSeparators before (pre ++ s) =
    fixSeparators before pre ++ fixSeparators (rev pre ++ before) s.
Proof.
  induction n as [|n IH]; intros pre before s L N.
  - destruct pre; [reflexivity | simpl in L; lia].
  - destruct pre as [|c [|d pre]]; [reflexivity| |].
    + cbn [app rev]. destruct s as [|e s]; [reflexivity|].
      rewrite fixSeparators_cons.
      destruct (Ascii.eqb_spec e "/") as [->|_]; [now elim (N s)|].
      now rewrite andb_false_r.
    + cbn [app]. rewrite !fixSeparators_cons.
      destruct (_ && _ && _).
      * cbn [app]. f_equal. rewrite IH by (simpl in *; lia || assumption).
        cbn [rev]. now rewrite <- !app_assoc.
      * cbn [app]. f_equal. change (d :: pre ++ s) with ((d :: pre) ++ s).
        rewrite IH by (simpl in *; lia || assumption).
        cbn [rev]. now rewrite <- !app_assoc.
Qed.

Lemma fixSeparators_app (pre before s : jsstring) :
  (forall r, s <> "/"%char :: r) ->
  fixSeparators before (pre ++ s) =
  fixSeparators before pre ++ fixSeparators (rev pre ++ before) s.
Proof. apply (fixSeparators_app_bounded (length pre)). lia. Qed.

Lemma fixSeparators_no_slash (pre before s : jsstring) :
  forallb (fun c => negb (Ascii.eqb c "/")) pre = true ->
  fixSeparators before (pre ++ s) = pre ++ fixSeparators (rev pre ++ before) s.
Proof.
  revert before. induction pre as [|c pre IH]; intros before F; [reflexivity|].
  cbn [forallb] in F. apply andb_prop in F as [C F]. apply negb_true_iff in C.
  cbn [app rev]. rewrite <- app_assoc. cbn [app]. rewrite <- IH by assumption.
  destruct (pre ++ s) as [|d r]; [reflexivity|].
  rewrite fixSeparators_cons, C. reflexivity.
Qed.

Lemma fixSeparators_plain (before s : jsstring) :
  includes s "//" = false -> fixSeparators before s = s.
Proof.
  revert before. induction s as [|c r IH]; intros before N; [reflexivity|].
  destruct r as [|d r']; [reflexivity|]. rewrite fixSeparators_cons.
  destruct (Ascii.eqb_spec c "/") as [->|_].
  - destruct (Ascii.eqb_spec d "/") as [->|_].
    + exfalso. assert (T : includes ("/"%char :: "/"%char :: r') "//" = true);
        [|congruence]. apply includes_spec. now exists [], r'.
    + cbn [andb]. f_equal. apply IH. eapply includes_cons. eassumption.
  - cbn [andb]. f_equal. apply IH. eapply includes_cons. eassumption.
Qed.

Lemma afterScheme_http (before : jsstring) :
  afterScheme (rev (lit "http:") ++ before) = true.
Proof. reflexivity. Qed.

Lemma afterScheme_https (before : jsstring) :
  afterScheme (rev (lit "https:") ++ before) = true.
Proof. reflexivity. Qed.

(** A plain URL goes through the rewriting untouched, whatever stands in
    front of it. *)
Lemma fixSeparators_url (before scheme run : jsstring) :
  scheme = lit "http:/" \/ scheme = lit "https:/" ->
  plainUrl (scheme ++ "/"%char :: run) ->
  fixSeparators before (scheme ++ "/"%char :: run) = scheme ++ "/"%char :: run.
Proof.
  unfold plainUrl. intros [->| ->] N.
  - change (pathOf (lit "http:/" ++ "/"%char :: run)) with ("/"%char :: run) in N.
    change (lit "http:/" ++ "/"%char :: run)
      with (lit "http:" ++ "/"%char :: "/"%char :: run).
    rewrite (fixSeparators_no_slash (lit "http:")) by reflexivity.
    rewrite fixSeparators_cons, afterScheme_http. cbn [Ascii.eqb Bool.eqb andb negb].
    rewrite (fixSeparators_plain _ ("/"%char :: run)) by assumption.
    reflexivity.
  - change (pathOf (lit "https:/" ++ "/"%char :: run)) with ("/"%char :: run) in N.
    change (lit "https:/" ++ "/"%char :: run)
      with (lit "https:" ++ "/"%char :: "/"%char :: run).
    rewrite (fixSeparators_no_slash (lit "https:")) by reflexivity.
    rewrite fixSeparators_cons, afterScheme_https. cbn [Ascii.eqb Bool.eqb andb negb].
    rewrite (fixSeparators_plain _ ("/"%char :: run)) by assumption.
    reflexivity.
Qed.

(** A stored URL that is plain stands unchanged in the rewritten text. *)
Lemma fixSeparators_keeps (s url : jsstring) :
  In url (matchAll url_re s) -> plainUrl url ->
  includes (fixSeparators [] s) url = true.
Proof.
  intros I Pl. destruct (matches_occurrence _ _ _ I) as (pre & post & n & -> & R & F).
  destruct (url_re_shape _ _ R) as (scheme & run & rest & Sc & E & -> & Sp).
  rewrite E, firstn_app, Nat.sub_diag, firstn_all in F. cbn [firstn] in F.
  rewrite app_nil_r in F. subst url. apply app_inv_head in E. subst post.
  apply includes_spec.
  rewrite fixSeparators_app by (destruct Sc as [->| ->]; discriminate).
  rewrite fixSeparators_app.
  - rewrite fixSeparators_url by assumption. eauto.
  - intros r ->. destruct Sp as [|(c & r' & [= <- _] & Sp)]; discriminate.
Qed.

End Urls.

(** C2, as the code has it.  For an input that takes the branch of the
    unknown commands, whose trimmed text holds no [__URL] and whose URLs
    hold no dollar sign, the normaliser returns, when it returns, the words
    it keeps
    with their separators rewritten: the trimmed text up to the first later
    word that repeats the first one, which is the whole trimmed text when no
    word does.  Every URL of the kept text that has no double slash behind
    the one of its scheme stands in the result unchanged. *)
Theorem cleanCommand_keeps_urls (command out : jsstring) :
  commonCommands (toLowerCase (baseWord command)) = Undefined ->
  (forall url, In url (matchAll url_re (trim command)) -> ~ In "$"%char url) ->
  includes (trim command) "__URL" = false ->
  cleanCommand command = Ok out ->
  out = fixSeparators [] (keptText command) /\
  (forall url,
      In url (matchAll url_re (keptText command)) -> plainUrl url ->
      includes out url = true) /\
  ((forall part,
       In part (tl (splitOn (Ascii.eqb " ") (maskedText command))) ->
       toLowerCase part <> toLowerCase (baseWord command)) ->
   keptText command = trim command).
Proof.
  intros U D N C.
  pose proof (join_splitOn " " (trim command)) as Jt.
  destruct (join_firstn_prefix " " (splitOn (Ascii.eqb " ") (trim command))
              (length (collectParameters (baseWord command)
                         (tl (splitOn (Ascii.eqb " ") (maskedText command))))))
    as [tail P].
  fold (keptWords command) in P. fold (keptText command) in P.
  change (lit " ") with [" "%char] in P. rewrite Jt in P.
  assert (O : out = fixSeparators [] (keptText command)).
  { unfold cleanCommand in C.
    destruct (masked_words (length (trim command)) (trim command) []
                (length (collectParameters (baseWord command)
                           (tl (splitOn (Ascii.eqb " ") (maskedText command)))))
                (le_n _)) as (J & more & M).
    fold (keptWords command) in J, M. fold (keptText command) in J, M.
    fold (maskedText command) in J.
    pose proof (storeUrls_snd (scan url_re (trim command)) []) as S1.
    fold (matchAll url_re (trim command)) in S1. cbn [app] in S1.
    unfold keptWords, baseWord in J. unfold baseWord in U. unfold maskedText in J, U.
    destruct (storeUrls (scan url_re (trim command)) []) as [masked urls].
    cbn [fst snd] in *. subst urls. rewrite U in C. cbn [bind] in C.
    pose proof (splitOn_nonempty (Ascii.eqb " ") masked) as NE.
    destruct (splitOn (Ascii.eqb " ") masked) as [|base parameters]; [congruence|].
    cbn [hd tl] in *.
    rewrite (collectParameters_prefix base parameters) in C.
    set (n := length (collectParameters base parameters)) in *.
    replace (base ++ match firstn n parameters with
                     | [] => []
                     | _ :: _ => lit " " ++ join " " (firstn n parameters)
                     end)
      with (join " " (firstn (S n) (base :: parameters))) in C
      by (cbn [firstn]; destruct (firstn n parameters);
          [now rewrite app_nil_r | reflexivity]).
    rewrite J, M, restoreUrls_app in C.
    destruct (restore_stored (length (keptText command)) (keptText command) [] [])
      as (new & E1 & E2).
    - lia.
    - cbn [app]. apply (includes_app_l _ tail). now rewrite <- P.
    - intros u I. apply D. rewrite M. apply in_or_app. now left.
    - rewrite storeUrls_snd in E1. cbn [app length] in E1, E2.
      fold (scan url_re (keptText command)) in E1, E2.
      fold (matchAll url_re (keptText command)) in E1. subst new.
      rewrite E2, restoreUrls_absent in C
        by (apply (includes_app_l _ tail); now rewrite <- P).
      destruct (startsInvalid _); congruence. }
  split; [assumption|]. split.
  - intros url I Pl. rewrite O. now apply fixSeparators_keeps.
  - intros K. unfold keptText, keptWords.
    rewrite (collectParameters_all _ _ K).
    pose proof (masked_length _ (trim command) [] (le_n _)) as Len.
    fold (maskedText command) in Len.
    pose proof (splitOn_nonempty (Ascii.eqb " ") (maskedText command)) as NE.
    destruct (splitOn (Ascii.eqb " ") (maskedText command)) as [|b ps]; [congruence|].
    cbn [tl length] in *. rewrite Len, firstn_all. exact Jt.
Qed.

Lemma cleanCommand_keeps_urls_witness :
  includes (fixSeparators [] "start https://example.com/a/b?q=1 docs//readme")
           "https://example.com/a/b?q=1" = true.
Proof.
  refine (proj1 (proj2 (cleanCommand_keeps_urls
                   " start https://example.com/a/b?q=1 docs//readme start again "
                   (fixSeparators [] "start https://example.com/a/b?q=1 docs//readme")
                   _ _ _ _))
                "https://example.com/a/b?q=1" _ _).
  - vm_compute. reflexivity.
  - intros url I. vm_compute in I. destruct I as [<-|[]].
    vm_compute. intuition congruence.
  - vm_compute. reflexivity.
  - vm_compute. reflexivity.
  - vm_compute. now left.
  - vm_compute. reflexivity.
Defined.

(** C2 as it is stated fails: for a known command the URL goes with the
    other arguments that are not flags. *)
Lemma cleanCommand_drops_url :
  urlsOf "curl -s https://example.com/a" = [lit "https://example.com/a"] /\
  cleanCommand "curl -s https://example.com/a" = Ok (lit "curl -s") /\
  includes "curl -s" "https://example.com/a" = false.
Proof. repeat split; vm_compute; reflexivity. Qed.

(** What the statement of C2 leaves out.  The URLs are put back before the
    separators are rewritten, and they are put back as replacement patterns:
    a double slash inside a URL is rewritten, and [$&] in a URL is replaced
    by the placeholder. *)
Example cleanCommand_rewrites_inside_url :
  cleanCommand "start http://example.com//a" = Ok (lit "start http://example.com\a").
Proof. vm_compute. reflexivity. Qed.

Example cleanCommand_expands_dollar :
  cleanCommand "start http://example.com/$&" = Ok (lit "start http://example.com/__URL0__").
Proof. vm_compute. reflexivity. Qed.

Example cleanCommand_cuts_at_repeated_word :
  cleanCommand "echo hello echo http://example.com/a" = Ok (lit "echo hello").
Proof. vm_compute. reflexivity. Qed.


(** ** The normaliser: known commands *)

Section KnownCommands.

Lemma lower_char_idempotent (c : ascii) : lower_char (lower_char c) = lower_char c.
Proof. destruct c as [[] [] [] [] [] [] [] []]; reflexivity. Qed.

Lemma toLowerCase_idempotent (s : jsstring) :
  toLowerCase (toLowerCase s) = toLowerCase s.
Proof.
  unfold toLowerCase. rewrite map_map. apply map_ext. apply lower_char_idempotent.
Qed.

Lemma arrayIncludes_In (l : list jsstring) (x : jsstring) :
  arrayIncludes l x = true <-> In x l.
Proof.
  unfold arrayIncludes. rewrite existsb_exists. split.
  - intros (y & I & E). apply eqb_eq in E. now subst.
  - intros I. exists x. split; [assumption | apply eqb_refl].
Qed.

Lemma arrayIncludes_snoc (l : list jsstring) (x y : jsstring) :
  arrayIncludes (l ++ [x]) y = arrayIncludes l y || eqb y x.
Proof. unfold arrayIncludes. rewrite existsb_app. simpl. now rewrite orb_false_r. Qed.

Lemma filter_twice {A} (f g : A -> bool) (l : list A) :
  filter f (filter g l) = filter (fun x => g x && f x) l.
Proof.
  induction l as [|x l IH]; simpl; [reflexivity|].
  destruct (g x); simpl; [destruct (f x)|]; now rewrite IH.
Qed.

Lemma keepValid_fold (validParams paramMatches params : list jsstring) :
  keepValid validParams paramMatches params =
  fold_left setAdd
            (filter (arrayIncludes validParams) (map toLowerCase paramMatches))
            params.
Proof.
  revert params. induction paramMatches as [|m ms IH]; intros params; simpl.
  - reflexivity.
  - rewrite IH. now destruct (arrayIncludes validParams (toLowerCase m)).
Qed.

(** A [Set] filled in order holds the first occurrences in order. *)
Lemma setAdd_firstSeen (xs params : list jsstring) :
  fold_left setAdd xs params =
  params ++ filter (fun y => negb (arrayIncludes params y)) (firstSeen xs).
Proof.
  revert params. induction xs as [|x xs IH]; intros params; simpl.
  - now rewrite app_nil_r.
  - rewrite IH, filter_twice. unfold setAdd.
    destruct (arrayIncludes params x) eqn:E; simpl.
    + f_equal. apply filter_ext. intros y.
      destruct (arrayIncludes params y) eqn:Y, (eqb y x) eqn:Q; try reflexivity.
      apply eqb_eq in Q. congruence.
    + rewrite <- app_assoc. simpl. do 2 f_equal. apply filter_ext. intros y.
      rewrite arrayIncludes_snoc, negb_orb. apply andb_comm.
Qed.

Lemma firstSeen_In (l : list jsstring) (y : jsstring) :
  In y (firstSeen l) <-> In y l.
Proof.
  induction l as [|x l IH]; simpl; [tauto|].
  rewrite filter_In, IH. split.
  - intros [E|[I _]]; auto.
  - intros [E|I]; [now left|].
    destruct (eqb y x) eqn:Q; [left; apply eqb_eq in Q; congruence | now right].
Qed.

Lemma firstSeen_NoDup (l : list jsstring) : NoDup (firstSeen l).
Proof.
  induction l as [|x l IH]; simpl; constructor.
  - rewrite filter_In. intros [_ H]. now rewrite eqb_refl in H.
  - now apply NoDup_filter.
Qed.

Lemma tidy_app (a b : jsstring) :
  tidy a = true -> tidy b = true -> tidy (a ++ b) = true.
Proof.
  intros A B. induction a as [|c r IH]; [assumption|]. simpl in *.
  apply andb_prop in A as [A T]. apply andb_prop in A as [U F].
  rewrite U, (IH T), andb_true_r. simpl.
  destruct (Ascii.eqb c "/"); [|reflexivity]. destruct r; [discriminate | assumption].
Qed.

Lemma tidy_join (parts : list jsstring) :
  forallb tidy parts = true -> tidy (join " " parts) = true.
Proof.
  induction parts as [|p [|q rest] IH]; simpl; intros H.
  - reflexivity.
  - now rewrite andb_true_r in H.
  - apply andb_prop in H as [P H]. apply tidy_app; [assumption|].
    apply (tidy_app " "); [reflexivity | now apply IH].
Qed.

Lemma tidy_no_placeholder (s : jsstring) (index : nat) :
  tidy s = true -> indexOf (placeholder index) s = None.
Proof.
  intros T. destruct (indexOf (placeholder index) s) as [i|] eqn:E; [|reflexivity].
  apply indexOf_app in E as (tail & E & _). exfalso.
  assert (I : In "_"%char s).
  { rewrite <- (firstn_skipn i s), E. apply in_or_app. right. now left. }
  clear - T I. induction s as [|c r IH]; [destruct I|]. simpl in T.
  apply andb_prop in T as [A T]. apply andb_prop in A as [U _].
  destruct I as [->|I]; [discriminate | auto].
Qed.

Lemma tidy_restoreUrls (urls : list jsstring) (index : nat) (s : jsstring) :
  tidy s = true -> restoreUrls urls index s = s.
Proof.
  intros T. revert index. induction urls as [|u urls IH]; intros index; simpl.
  - reflexivity.
  - unfold replaceFirst. rewrite tidy_no_placeholder by assumption. apply IH.
Qed.

Lemma tidy_fixSeparators (before s : jsstring) :
  tidy s = true -> fixSeparators before s = s.
Proof.
  revert before. induction s as [|c r IH]; intros before T; [reflexivity|].
  simpl in T. apply andb_prop in T as [A T]. apply andb_prop in A as [_ F].
  destruct r as [|d r']; [reflexivity|]. rewrite fixSeparators_cons.
  destruct (Ascii.eqb c "/") eqn:C.
  - destruct (Ascii.eqb_spec d "/") as [->|_]; [discriminate F|].
    cbn [andb]. f_equal. now apply IH.
  - cbn [andb]. f_equal. now apply IH.
Qed.

Lemma tidy_filtered (validParams l : list jsstring) :
  forallb tidy validParams = true ->
  forallb tidy (firstSeen (filter (arrayIncludes validParams) l)) = true.
Proof.
  intros V. apply forallb_forall. intros x I.
  apply firstSeen_In, filter_In in I as [_ I]. apply arrayIncludes_In in I.
  rewrite forallb_forall in V. now apply V.
Qed.

(** *** The first word *)

Lemma splitOn_head (s : jsstring) :
  exists rest,
    s = hd [] (splitOn (Ascii.eqb " ") s) ++ rest /\ endsWord rest /\
    ~ In " "%char (hd [] (splitOn (Ascii.eqb " ") s)).
Proof.
  induction s as [|c r (rest & E & R & N)]; cbn [splitOn].
  - exists []. repeat split; [now left | intros []].
  - destruct (Ascii.eqb_spec " " c) as [<-|Q].
    + exists (" "%char :: r). repeat split; [right; eauto | intros []].
    + pose proof (splitOn_nonempty (Ascii.eqb " ") r) as NE.
      destruct (splitOn (Ascii.eqb " ") r) as [|h t]; [congruence|].
      cbn [hd] in *. exists rest. repeat split; [simpl; congruence | assumption |].
      intros [I|I]; [congruence | auto].
Qed.

Lemma hd_splitOn_word (w rest : jsstring) :
  ~ In " "%char w -> endsWord rest ->
  hd [] (splitOn (Ascii.eqb " ") (w ++ rest)) = w.
Proof.
  intros N R. induction w as [|c w IH]; cbn [app].
  - destruct R as [->|[r ->]]; reflexivity.
  - cbn [splitOn]. destruct (Ascii.eqb_spec " " c) as [<-|_].
    + exfalso. apply N. now left.
    + pose proof (splitOn_nonempty (Ascii.eqb " ") (w ++ rest)) as NE.
      destruct (splitOn (Ascii.eqb " ") (w ++ rest)) as [|h t]; [congruence|].
      cbn [hd] in *. f_equal. apply IH. intros I. apply N. now right.
Qed.

(** No URL starts inside a word without a colon. *)
Lemma url_re_word (w rest : jsstring) :
  ~ In ":"%char w -> endsWord rest -> url_re (w ++ rest) = None.
Proof.
  intros N R. destruct (url_re (w ++ rest)) as [n|] eqn:U; [|reflexivity].
  exfalso. apply url_re_shape in U as (scheme & run & rest0 & Sc & E & _ & _).
  destruct Sc as [->| ->]; cbv [lit list_ascii_of_string] in E; cbn [app] in E;
    destruct w as [|a [|b [|c [|d [|e [|f w]]]]]];
    destruct R as [->|[r ->]]; cbn [app] in E;
    first [ discriminate E
          | injection E; intros; subst;
            first [congruence | apply N; simpl; auto 10] ].
Qed.

Lemma storeUrls_word (w rest : jsstring) (urls : list jsstring) :
  ~ In ":"%char w -> endsWord rest ->
  fst (storeUrls (scan url_re (w ++ rest)) urls) =
  w ++ fst (storeUrls (scan url_re rest) urls).
Proof.
  intros N R. induction w as [|c w IH]; [reflexivity|]. cbn [app].
  rewrite scan_cons_skip by (left; apply (url_re_word (c :: w)); assumption).
  rewrite storeUrls_skipped. cbn [fst]. f_equal. apply IH.
  intros I. apply N. now right.
Qed.

Lemma storeUrls_endsWord (rest : jsstring) (urls : list jsstring) :
  endsWord rest -> endsWord (fst (storeUrls (scan url_re rest) urls)).
Proof.
  intros [->|[r ->]]; [now left | right].
  rewrite scan_cons_skip by now left. rewrite storeUrls_skipped. cbn [fst]. eauto.
Qed.

(** The masking leaves a first word without a colon as it is. *)
Lemma baseWord_firstWord (command : jsstring) :
  ~ In ":"%char (firstWord command) -> baseWord command = firstWord command.
Proof.
  unfold baseWord, firstWord, maskedText. intros N.
  destruct (splitOn_head (trim command)) as (rest & E & R & Sp).
  rewrite E at 1. rewrite storeUrls_word by assumption.
  apply hd_splitOn_word; [assumption | now apply storeUrls_endsWord].
Qed.

Lemma toLowerCase_In (c : ascii) (s : jsstring) :
  In c s -> In (lower_char c) (toLowerCase s).
Proof. apply in_map. Qed.

(** The known branch, from the table entry to the returned command. *)
Lemma cleanCommand_known (command base : jsstring) (validParams : list jsstring) :
  toLowerCase (baseWord command) = base ->
  commonCommands base = ValidParams validParams ->
  tidy base = true -> startsInvalid (base ++ lit " ") = false ->
  forallb tidy validParams = true ->
  cleanCommand command =
    Ok (base ++ lit " " ++
        join " " (firstSeen (filter (arrayIncludes validParams)
                                    (map toLowerCase (flagTokens command))))).
Proof.
  intros B L TB SB TV. unfold cleanCommand.
  unfold baseWord, flagTokens, maskedText in *.
  destruct (storeUrls (scan url_re (trim command)) []) as [masked urls].
  cbn [fst] in *. rewrite B, L. cbn [bind].
  rewrite keepValid_fold, setAdd_firstSeen. cbn [app arrayIncludes existsb negb].
  rewrite forallb_filter_id by (apply forallb_forall; reflexivity).
  set (flags := firstSeen _).
  assert (T : tidy (base ++ lit " " ++ join " " flags) = true).
  { apply tidy_app; [assumption|]. apply (tidy_app " "); [reflexivity|].
    apply tidy_join. now apply tidy_filtered. }
  rewrite tidy_restoreUrls, tidy_fixSeparators by assumption.
  replace (startsInvalid (base ++ lit " " ++ join " " flags)) with false; [reflexivity|].
  destruct base; [discriminate SB | exact (eq_sym SB)].
Qed.

(** Where the table compares in lower case what it lists in lower case,
    comparing without regard to case selects the same tokens. *)
Lemma filter_ignoring_case (validParams tokens : list jsstring) :
  (forall token,
      In token tokens ->
      In (toLowerCase token) (map toLowerCase validParams) ->
      In (toLowerCase token) validParams) ->
  filter (arrayIncludes (map toLowerCase validParams)) (map toLowerCase tokens) =
  filter (arrayIncludes validParams) (map toLowerCase tokens).
Proof.
  intros H. apply filter_ext_in. intros f I.
  apply in_map_iff in I as (token & <- & I).
  destruct (arrayIncludes validParams (toLowerCase token)) eqn:E.
  - apply arrayIncludes_In. apply arrayIncludes_In in E.
    rewrite <- toLowerCase_idempotent. now apply in_map.
  - destruct (arrayIncludes (map toLowerCase validParams) (toLowerCase token)) eqn:F;
      [|reflexivity].
    apply arrayIncludes_In in F. apply (H token I), arrayIncludes_In in F. congruence.
Qed.

End KnownCommands.

(** C8, as the code has it.  When the first word of the trimmed text, as
    single spaces delimit it and in lower case, is a known command, the
    normaliser returns that word, a space, and the flags joined by spaces:
    the matches of the parameter pattern outside URLs, in lower case, that
    the allow-list of the command holds, each once in the order of the first
    occurrences.  Everything else is dropped.  The statement covers the
    inputs in which no flag meets an allow-list entry only up to the case of
    the entry. *)
Theorem cleanCommand_known_command :
  (forall (command base : jsstring) (allowed : list jsstring),
      In (base, allowed) knownCommands ->
      toLowerCase (firstWord command) = base ->
      (forall token,
          In token (flagTokens command) ->
          In (toLowerCase token) (map toLowerCase allowed) ->
          In (toLowerCase token) allowed) ->
      let flags :=
        firstSeen (filter (arrayIncludes (map toLowerCase allowed))
                          (map toLowerCase (flagTokens command))) in
      cleanCommand command = Ok (base ++ lit " " ++ join " " flags) /\
      NoDup flags /\
      (forall f, In f flags <->
                 In f (map toLowerCase allowed) /\
                 In f (map toLowerCase (flagTokens command)))) /\
  cleanCommand "dir /a /a /s /unknownflag" = Ok (lit "dir /a /s").
Proof.
  split; [|vm_compute; reflexivity].
  intros command base allowed K B H flags. split; [|split].
  - unfold flags. rewrite (filter_ignoring_case _ _ H).
    assert (W : baseWord command = firstWord command).
    { apply baseWord_firstWord. intros I. apply toLowerCase_In in I.
      rewrite B in I. unfold knownCommands in K.
      repeat (destruct K as [K|K];
              [injection K as <- <-; vm_compute in I; intuition congruence|]).
      destruct K. }
    rewrite <- W in B. unfold knownCommands in K.
    repeat (destruct K as [K|K];
            [injection K as <- <-; now apply cleanCommand_known|]).
    destruct K.
  - apply firstSeen_NoDup.
  - intros f. unfold flags. rewrite firstSeen_In, filter_In, arrayIncludes_In. tauto.
Qed.

Lemma cleanCommand_known_command_witness :
  cleanCommand "CURL -S -o out.txt -s http://example.com/a -k" = Ok (lit "curl -s -o").
Proof.
  refine (proj1 (proj1 cleanCommand_known_command
                   "CURL -S -o out.txt -s http://example.com/a -k" "curl"
                   [lit "-s"; lit "-o"; lit "-L"; lit "-I"; lit "-H"] _ _ _)).
  - simpl. tauto.
  - vm_compute. reflexivity.
  - intros token I. vm_compute in I.
    repeat (destruct I as [<-|I]; [vm_compute; intuition congruence|]).
    destruct I.
Defined.

(** C8 as it is stated fails: a tab delimits the first word [dir] for the
    reader but not for the normaliser, which takes the text for an unknown
    command and returns it with its repeated flag. *)
Lemma cleanCommand_tab_delimited :
  firstWhitespaceWord (lit "dir" ++ [TAB] ++ lit "/a /a") = lit "dir" /\
  cleanCommand (lit "dir" ++ [TAB] ++ lit "/a /a") =
    Ok (lit "dir" ++ [TAB] ++ lit "/a /a").
Proof. split; vm_compute; reflexivity. Qed.

(** What the statement of C8 leaves out.  The table lists [-L], [-I] and
    [-H] for [curl] in upper case and the tokens are compared in lower case,
    so that these three flags never survive. *)
Example cleanCommand_drops_upper_case_flag :
  cleanCommand "curl -L -s" = Ok (lit "curl -s").
Proof. vm_compute. reflexivity. Qed.

Example cleanCommand_inherited_key :
  cleanCommand "constructor" = Ok (lit "constructor ") /\
  cleanCommand "constructor /x" =
    Throw (JsError "TypeError" "validParams.includes is not a function").
Proof. split; vm_compute; reflexivity. Qed.

(** ** The safety validator *)

Section Validator.

Lemma requiresAdminPrivileges_spec (command : jsstring) :
  requiresAdminPrivileges command = true <->
  exists entry, In entry ADMIN_COMMANDS /\ containsIgnoringCase command entry.
Proof.
  unfold requiresAdminPrivileges. rewrite existsb_exists. split.
  - intros (entry & I & H). exists entry. split; [assumption|].
    apply includes_spec in H as (pre & post & H).
    apply toLowerCase_split in H as (p & rest & -> & _ & H).
    apply toLowerCase_split in H as (mid & q & -> & H & _).
    now exists p, mid, q.
  - intros (entry & I & pre & mid & post & -> & H). exists entry.
    split; [assumption|]. apply includes_spec.
    exists (toLowerCase pre), (toLowerCase post).
    now rewrite !toLowerCase_app, H.
Qed.

Lemma checkSegments_throws (segments : list jsstring) (e : Thrown) :
  checkSegments segments = Throw e ->
  e = AIError "Too many output redirections in a single command segment"
              "INVALID_REDIRECTION".
Proof.
  induction segments as [|seg rest IH]; simpl; [discriminate|].
  destruct (1 <? _); [congruence | assumption].
Qed.

Lemma checkSegments_spec (segments : list jsstring) :
  (exists e, checkSegments segments = Throw e) <->
  exists segment,
    In segment segments /\ 1 < length (matchRedirections false segment).
Proof.
  induction segments as [|seg rest IH]; simpl.
  - split; [intros [e H]; discriminate | intros (x & [] & _)].
  - destruct (1 <? _) eqn:E.
    + apply Nat.ltb_lt in E. split; eauto.
    + apply Nat.ltb_ge in E. rewrite IH. split.
      * intros (x & I & H). eauto.
      * intros (x & [<-|I] & H); [lia | eauto].
Qed.

(** The scan of the code and the positions of the specification count the
    same operators. *)
Lemma matchRedirections_positions (prev : ascii) (s : jsstring) :
  length (matchRedirections (isGt prev) s) =
  length (filter (fun i => isGt (nth i s " "%char) && negb (isGt (nth i (prev :: s) " "%char)))
                 (seq 0 (length s))).
Proof.
  revert prev. induction s as [|c s IH]; intros prev; [reflexivity|].
  cbn [matchRedirections length seq filter nth].
  rewrite <- seq_shift.
  assert (F : forall (f : nat -> bool) l,
             filter f (map S l) = map S (filter (fun i => f (S i)) l)).
  { intros f l. induction l as [|x l IHl]; simpl; [reflexivity|].
    destruct (f (S x)); simpl; now rewrite IHl. }
  rewrite F. cbn [nth]. fold (isGt c).
  generalize (IH c). destruct (isGt c), (isGt prev); simpl; intros ->;
    now rewrite length_map.
Qed.

Lemma matchRedirections_operators (segment : jsstring) :
  length (matchRedirections false segment) = length (redirectionOperators segment).
Proof.
  change false with (isGt " "%char).
  rewrite matchRedirections_positions. unfold redirectionOperators.
  f_equal. apply filter_ext_in. intros i _. f_equal. f_equal.
  destruct i; reflexivity.
Qed.

(** A segment holds no separator. *)
Lemma splitOn_no_separator (sep : ascii -> bool) (s segment : jsstring) :
  In segment (splitOn sep s) -> forallb (fun c => negb (sep c)) segment = true.
Proof.
  revert segment. induction s as [|c s IH]; intros segment; simpl.
  - intros [<-|[]]. reflexivity.
  - destruct (sep c) eqn:E.
    + intros [<-|I]; [reflexivity | now apply IH].
    + destruct (splitOn sep s) as [|h t]; simpl.
      * intros [<-|[]]. simpl. now rewrite E.
      * intros [<-|I]; [|apply IH; now right].
        simpl. rewrite E. simpl. apply IH. now left.
Qed.

Lemma requiresAdminPrivileges_false (command : jsstring) :
  requiresAdminPrivileges command = false <->
  forall entry, In entry ADMIN_COMMANDS -> ~ containsIgnoringCase command entry.
Proof.
  split.
  - intros F entry I C.
    assert (T : requiresAdminPrivileges command = true)
      by (apply requiresAdminPrivileges_spec; eauto).
    congruence.
  - intros H. destruct (requiresAdminPrivileges command) eqn:E; [|reflexivity].
    apply requiresAdminPrivileges_spec in E as (entry & I & C).
    now elim (H entry I).
Qed.

Lemma splitOn_chain (sep : ascii -> bool) (a b : jsstring) (c : ascii) :
  sep c = true -> splitOn sep (a ++ c :: b) = splitOn sep a ++ splitOn sep b.
Proof.
  intros S. induction a as [|d a IH]; cbn [app splitOn].
  - now rewrite S.
  - rewrite IH. destruct (sep d); [reflexivity|].
    pose proof (splitOn_nonempty sep a) as NE.
    destruct (splitOn sep a); [congruence | reflexivity].
Qed.

Lemma splitOn_plain (sep : ascii -> bool) (s : jsstring) :
  (forall c, In c s -> sep c = false) -> splitOn sep s = [s].
Proof.
  induction s as [|c s IH]; intros F; [reflexivity|]. cbn [splitOn].
  rewrite (F c) by now left. rewrite IH; [reflexivity|].
  intros d I. apply F. now right.
Qed.

(** A text holds no separator, or it has a first one. *)
Lemma splitOn_cases (sep : ascii -> bool) (s : jsstring) :
  ((forall c, In c s -> sep c = false) /\ splitOn sep s = [s]) \/
  exists a c b,
    s = a ++ c :: b /\ (forall d, In d a -> sep d = false) /\ sep c = true /\
    splitOn sep s = a :: splitOn sep b.
Proof.
  induction s as [|c s IH].
  - left. split; [intros c [] | reflexivity].
  - cbn [splitOn]. destruct (sep c) eqn:E.
    + right. exists [], c, s.
      split; [reflexivity|]. split; [intros d []|]. now split.
    + destruct IH as [[F ->]|(a & d & b & -> & F & S & ->)].
      * left. split; [|reflexivity]. intros x [<-|I]; auto.
      * right. exists (c :: a), d, b.
        split; [reflexivity|]. split; [|now split]. intros x [<-|I]; auto.
Qed.

(** What [split] returns are the pieces between the separators, and all of
    them. *)
Lemma splitOn_pieces_bounded (sep : ascii -> bool) (n : nat) :
  forall s x,
    length s <= n -> In x (splitOn sep s) ->
    exists pre post,
      s = pre ++ x ++ post /\ (forall c, In c x -> sep c = false) /\
      (pre = [] \/ exists p c, pre = p ++ [c] /\ sep c = true) /\
      (post = [] \/ exists c q, post = c :: q /\ sep c = true).
Proof.
  induction n as [|n IH]; intros s x L I.
  - destruct s; [|simpl in L; lia]. destruct I as [<-|[]].
    exists [], []. split; [reflexivity|]. split; [intros c []|]. split; now left.
  - destruct (splitOn_cases sep s) as [[F E]|(a & c & b & -> & F & S & E)];
      rewrite E in I.
    + destruct I as [<-|[]]. exists [], []. rewrite app_nil_r.
      split; [reflexivity|]. split; [assumption|]. split; now left.
    + destruct I as [<-|I].
      * exists [], (c :: b). split; [reflexivity|]. split; [assumption|].
        split; [now left | right; eauto].
      * destruct (IH b x) as (pre & post & -> & Fx & P & Q);
          [rewrite length_app in L; simpl in L; lia | assumption |].
        exists (a ++ c :: pre), post. split; [now rewrite <- app_assoc|].
        split; [assumption|]. split; [|assumption]. right.
        destruct P as [->|(p & d & -> & Sd)].
        -- exists a, c. now split.
        -- exists (a ++ c :: p), d. split; [now rewrite <- app_assoc | assumption].
Qed.

Lemma piece_splitOn (sep : ascii -> bool) (s x pre post : jsstring) :
  s = pre ++ x ++ post -> (forall c, In c x -> sep c = false) ->
  (pre = [] \/ exists p c, pre = p ++ [c] /\ sep c = true) ->
  (post = [] \/ exists c q, post = c :: q /\ sep c = true) ->
  In x (splitOn sep s).
Proof.
  intros -> F P Q.
  assert (T : In x (splitOn sep (x ++ post))).
  { destruct Q as [->|(c & q & -> & S)].
    - rewrite app_nil_r, splitOn_plain by assumption. now left.
    - rewrite splitOn_chain, splitOn_plain by assumption. now left. }
  destruct P as [->|(p & c & -> & S)]; [assumption|].
  rewrite <- app_assoc. cbn [app]. rewrite splitOn_chain by assumption.
  apply in_or_app. now right.
Qed.

Lemma separator_chainCharacter (c : ascii) :
  is_segment_separator c = true <-> chainCharacter c.
Proof.
  unfold is_segment_separator, chainCharacter.
  rewrite orb_true_iff, !Ascii.eqb_eq. tauto.
Qed.

Lemma separator_false (c : ascii) :
  is_segment_separator c = false <-> ~ chainCharacter c.
Proof.
  rewrite <- separator_chainCharacter.
  destruct (is_segment_separator c); split; congruence.
Qed.

(** The segments the code checks are the segments that [&] and [|] cut the
    command into. *)
Lemma splitOn_segmentOf (command segment : jsstring) :
  In segment (splitOn is_segment_separator command) <-> segmentOf command segment.
Proof.
  unfold segmentOf. split.
  - intros I.
    destruct (splitOn_pieces_bounded is_segment_separator (length command)
                command segment (le_n _) I) as (pre & post & E & F & P & Q).
    exists pre, post. split; [assumption|]. split; [|split].
    + intros c J. now apply separator_false, F.
    + destruct P as [->|(p & c & -> & S)]; [now left | right].
      exists p, c. split; [reflexivity | now apply separator_chainCharacter].
    + destruct Q as [->|(c & q & -> & S)]; [now left | right].
      exists c, q. split; [reflexivity | now apply separator_chainCharacter].
  - intros (pre & post & E & F & P & Q).
    apply (piece_splitOn is_segment_separator command segment pre post E).
    + intros c J. now apply separator_false, F.
    + destruct P as [->|(p & c & -> & S)]; [now left | right].
      exists p, c. split; [reflexivity | now apply separator_chainCharacter].
    + destruct Q as [->|(c & q & -> & S)]; [now left | right].
      exists c, q. split; [reflexivity | now apply separator_chainCharacter].
Qed.

End Validator.

(** C6.  The validator fails with [ADMIN_REQUIRED] exactly when the command
    contains an entry of the denylist as a substring, letter case ignored;
    [net use Z: \\server\share] is rejected that way. *)
Theorem validateCommand_admin_required (command : jsstring) :
  ((exists message, validateCommand command = Throw (AIError message "ADMIN_REQUIRED"))
   <-> exists entry, In entry denylist /\ containsIgnoringCase command entry) /\
  validateCommand "net use Z: \\server\share" =
    Throw (AIError "This command requires administrator privileges" "ADMIN_REQUIRED").
Proof.
  split; [|reflexivity].
  change denylist with ADMIN_COMMANDS. rewrite <- requiresAdminPrivileges_spec.
  unfold validateCommand. destruct command as [|c r].
  - split; [intros [m H]; discriminate H | discriminate].
  - destruct (requiresAdminPrivileges (c :: r)).
    + split; eauto.
    + split; [|discriminate]. intros [m H].
      apply checkSegments_throws in H. discriminate H.
Qed.

Lemma validateCommand_admin_required_witness :
  exists message,
    validateCommand "ping InterNet.example" = Throw (AIError message "ADMIN_REQUIRED").
Proof.
  apply (proj2 (proj1 (validateCommand_admin_required "ping InterNet.example"))).
  exists (lit "net"). split; [simpl; tauto|].
  exists (lit "ping Inter"), (lit "Net"), (lit ".example"). split; reflexivity.
Defined.

(** C7.  A non-empty command that passes the admin check, holding no entry
    of the denylist, fails with [INVALID_REDIRECTION] exactly when one of
    the segments that [&] and [|] cut it into holds more than one [>] that no
    other [>] immediately precedes.  [dir > a.txt > b.txt] is rejected that
    way and [dir > a.txt && type a.txt] is accepted; so are two
    redirections that [&] or [|] keeps apart. *)
Theorem validateCommand_invalid_redirection :
  (forall command : jsstring,
      command <> [] ->
      (forall entry, In entry denylist -> ~ containsIgnoringCase command entry) ->
      ((exists message,
           validateCommand command = Throw (AIError message "INVALID_REDIRECTION"))
       <-> exists segment,
             segmentOf command segment /\
             1 < length (redirectionOperators segment))) /\
  validateCommand "dir > a.txt > b.txt" =
    Throw (AIError "Too many output redirections in a single command segment"
                   "INVALID_REDIRECTION") /\
  validateCommand "dir > a.txt && type a.txt" = Ok tt /\
  validateCommand "dir > a.txt & type b.txt > c.txt" = Ok tt /\
  validateCommand "dir > a.txt | find x > c.txt" = Ok tt.
Proof.
  split; [|repeat split; reflexivity].
  intros command NE A. change denylist with ADMIN_COMMANDS in A.
  apply requiresAdminPrivileges_false in A. unfold validateCommand.
  destruct command as [|c r]; [congruence|]. rewrite A.
  set (segments := splitOn _ _). split.
  - intros [m H]. destruct (proj1 (checkSegments_spec segments)) as (x & I & L); eauto.
    exists x. split; [now apply splitOn_segmentOf|].
    now rewrite <- matchRedirections_operators.
  - intros (x & I & L). apply splitOn_segmentOf in I.
    rewrite <- matchRedirections_operators in L.
    destruct (proj2 (checkSegments_spec segments)) as [e H]; eauto.
    rewrite H. apply checkSegments_throws in H. rewrite H. eauto.
Qed.

Lemma validateCommand_invalid_redirection_witness :
  exists message,
    validateCommand "echo a > b | find x > c >> d > e & dir" =
      Throw (AIError message "INVALID_REDIRECTION").
Proof.
  apply (proj1 validateCommand_invalid_redirection
           "echo a > b | find x > c >> d > e & dir").
  - discriminate.
  - apply requiresAdminPrivileges_false. vm_compute. reflexivity.
  - exists (lit " find x > c >> d > e "). split; [|vm_compute; lia].
    exists (lit "echo a > b |"), (lit "& dir"). split; [reflexivity|].
    split; [|split; right].
    + intros c I [->| ->]; vm_compute in I; intuition discriminate.
    + exists (lit "echo a > b "), "|"%char. split; [reflexivity | now right].
    + exists "&"%char, (lit " dir"). split; [reflexivity | now left].
Defined.

(** ** The remote completion client *)



(** ** The entry point *)

(** C9.  An empty or white-space-only user input fails with [INVALID_INPUT]
    and leaves the world as it was: no network call is made. *)
Theorem generateCommand_invalid_input
  (network : nat -> FetchOutcome) (userInput : jsstring) (w : World) :
  forallb is_space userInput = true ->
  generateCommand network userInput w =
    (Throw (AIError "User input is required" "INVALID_INPUT"), w).
Proof.
  intros H. unfold generateCommand. now rewrite trim_all_space.
Qed.

Lemma generateCommand_invalid_input_witness :
  generateCommand (fun _ => Rejected NonError) " 	 " initial =
    (Throw (AIError "User input is required" "INVALID_INPUT"), initial) /\
  generateCommand (fun _ => Rejected NonError) "" initial =
    (Throw (AIError "User input is required" "INVALID_INPUT"), initial).
Proof.
  split; apply generateCommand_invalid_input; reflexivity.
Defined.

(** What the entry point does with a completion that arrives: extraction
    and validation, and nothing between them. *)
Lemma generateCommand_pipeline
  (network : nat -> FetchOutcome) (userInput : jsstring) (c : OpenRouterResponse) :
  trim userInput <> [] ->
  returnsCompletion (network 0) c ->
  fst (generateCommand network userInput initial) =
  rethrow (command <- validateResponse (Some c) ;;
           validateCommand command ;;;
           Ok command).
Proof.
  intros N (response & R & O & J).
  unfold generateCommand. destruct (trim userInput); [congruence|].
  unfold fetchWithRetry.
  cbn [seq MAX_RETRIES retryLoop fetch initial calls record log].
  rewrite R. cbn [attempt]. rewrite O. cbn [negb fst bind]. now rewrite J.
Qed.

(** C1, on the code.  [generateCommand] passes the extracted line to the
    validator and returns it; [cleanCommand] is not called.  For the
    completion [dir /a /a], line feed, [dir /a /a] it returns [dir /a /a],
    whereas the normaliser maps that line to [dir /a]. *)
Theorem generateCommand_returns_extracted_line
  (network : nat -> FetchOutcome) (userInput : jsstring) :
  trim userInput <> [] ->
  returnsCompletion (network 0)
    (completion (lit "dir /a /a" ++ [LF] ++ lit "dir /a /a")) ->
  fst (generateCommand network userInput initial) = Ok (lit "dir /a /a") /\
  cleanCommand "dir /a /a" = Ok (lit "dir /a").
Proof.
  intros N R. split; [|vm_compute; reflexivity].
  rewrite (generateCommand_pipeline _ _ _ N R). vm_compute. reflexivity.
Qed.

Lemma generateCommand_returns_extracted_line_witness :
  fst (generateCommand (answering (lit "dir /a /a" ++ [LF] ++ lit "dir /a /a"))
                       "list all files" initial) = Ok (lit "dir /a /a") /\
  cleanCommand "dir /a /a" = Ok (lit "dir /a").
Proof.
  apply generateCommand_returns_extracted_line.
  - discriminate.
  - eexists. split; [reflexivity|]. split; reflexivity.
Defined.

(** C3, on the code.  The check for a first character that is not
    alphanumeric sits in [cleanCommand], which [generateCommand] does not
    call: the completion [@echo off] is returned as it is, although the
    normaliser rejects it with [INVALID_COMMAND]. *)
Theorem generateCommand_returns_invalid_start
  (network : nat -> FetchOutcome) (userInput : jsstring) :
  trim userInput <> [] ->
  returnsCompletion (network 0) (completion "@echo off") ->
  fst (generateCommand network userInput initial) = Ok (lit "@echo off") /\
  startsInvalid "@echo off" = true /\
  cleanCommand "@echo off" =
    Throw (AIError "Invalid command structure" "INVALID_COMMAND").
Proof.
  intros N R. split; [|split; vm_compute; reflexivity].
  rewrite (generateCommand_pipeline _ _ _ N R). vm_compute. reflexivity.
Qed.

Lemma generateCommand_returns_invalid_start_witness :
  fst (generateCommand (answering "@echo off") "silence the prompt" initial) =
    Ok (lit "@echo off") /\
  startsInvalid "@echo off" = true /\
  cleanCommand "@echo off" =
    Throw (AIError "Invalid command structure" "INVALID_COMMAND").
Proof.
  apply generateCommand_returns_invalid_start.
  - discriminate.
  - eexists. split; [reflexivity|]. split; reflexivity.
Defined.

(** * Further properties *)

(** ** The safety validator, as a whole *)

Section ValidatorMore.

Lemma checkSegments_ok (segments : list jsstring) :
  checkSegments segments = Ok tt <->
  forall segment, In segment segments ->
                  length (redirectionOperators segment) <= 1.
Proof.
  induction segments as [|seg rest IH]; simpl.
  - split; [intros _ x [] | reflexivity].
  - rewrite matchRedirections_operators. destruct (1 <? _) eqn:E.
    + apply Nat.ltb_lt in E. split; [discriminate|].
      intros H. specialize (H seg (or_introl eq_refl)). lia.
    + apply Nat.ltb_ge in E. rewrite IH. split.
      * intros H x [<-|I]; auto.
      * intros H x I. apply H. now right.
Qed.

(** A piece of text that holds no [c], found in [x ++ c :: y], lies in [x]
    or in [y]. *)
Lemma occurrence_beside (c : ascii) (p : jsstring) :
  ~ In c p ->
  forall pre x y post,
    x ++ c :: y = pre ++ p ++ post ->
    (exists post', x = pre ++ p ++ post') \/ (exists pre', y = pre' ++ p ++ post).
Proof.
  intros N.
  assert (Head : forall q x y post,
             (forall a, In a q -> In a p) ->
             x ++ c :: y = q ++ post -> exists post', x = q ++ post').
  { induction q as [|a q IH]; intros x y post S E; [now exists x|].
    destruct x as [|b x]; simpl in E.
    - injection E as <- _. exfalso. apply N, S. now left.
    - injection E as -> E. destruct (IH x y post) as [post' ->];
        [intros a' I; apply S; now right | assumption | now exists post']. }
  induction pre as [|d pre IH]; intros x y post E.
  - left. simpl in *. apply (Head p x y post); auto.
  - destruct x as [|b x]; simpl in E.
    + injection E as _ ->. right. now exists pre.
    + injection E as -> E. destruct (IH x y post E) as [[post' ->]|R].
      * left. now exists post'.
      * now right.
Qed.

Lemma lower_char_separator (c : ascii) :
  is_segment_separator (lower_char c) = is_segment_separator c.
Proof. destruct c as [[] [] [] [] [] [] [] []]; reflexivity. Qed.

Lemma no_separator_in_entries (entry : jsstring) (c : ascii) :
  In entry ADMIN_COMMANDS -> is_segment_separator c = true ->
  ~ In c (toLowerCase entry).
Proof.
  intros I S J. unfold ADMIN_COMMANDS in I.
  repeat (destruct I as [<-|I];
          [vm_compute in J;
           repeat (destruct J as [<-|J]; [discriminate S|]); destruct J|]).
  destruct I.
Qed.

(** The admin check of two commands joined by a separator is the check of
    each of them. *)
Lemma requiresAdminPrivileges_chain (a b : jsstring) (sep : ascii) :
  is_segment_separator sep = true ->
  requiresAdminPrivileges (a ++ sep :: b) =
  requiresAdminPrivileges a || requiresAdminPrivileges b.
Proof.
  intros S.
  destruct (requiresAdminPrivileges (a ++ sep :: b)) eqn:E.
  - apply requiresAdminPrivileges_spec in E as (entry & I & pre & mid & post & Q & L).
    assert (N : ~ In sep mid).
    { intros J. apply (no_separator_in_entries entry (lower_char sep) I).
      - now rewrite lower_char_separator.
      - rewrite <- L. now apply toLowerCase_In. }
    symmetry. apply orb_true_iff.
    destruct (occurrence_beside sep mid N pre a b post Q) as [[post' ->]|[pre' ->]];
      [left | right]; apply requiresAdminPrivileges_spec;
      exists entry; (split; [assumption|]); eexists _, mid, _; eauto.
  - symmetry. apply orb_false_iff. split.
    + destruct (requiresAdminPrivileges a) eqn:A; [|reflexivity].
      apply requiresAdminPrivileges_spec in A as (entry & I & pre & mid & post & -> & L).
      rewrite <- E. symmetry. apply requiresAdminPrivileges_spec.
      exists entry. split; [assumption|].
      exists pre, mid, (post ++ sep :: b). now rewrite <- !app_assoc.
    + destruct (requiresAdminPrivileges b) eqn:B; [|reflexivity].
      apply requiresAdminPrivileges_spec in B as (entry & I & pre & mid & post & -> & L).
      rewrite <- E. symmetry. apply requiresAdminPrivileges_spec.
      exists entry. split; [assumption|].
      exists (a ++ sep :: pre), mid, post. now rewrite <- !app_assoc.
Qed.

End ValidatorMore.

(** X1.  The validator accepts a command exactly when it is not empty, holds no
    entry of the denylist as a substring up to letter case, and has at most
    one redirection operator in each of the segments that [&] and [|] cut it
    into; it reports [EMPTY_COMMAND] exactly for the empty command. *)
Theorem validateCommand_accepts (command : jsstring) :
  (validateCommand command = Ok tt <->
   command <> [] /\
   (forall entry, In entry denylist -> ~ containsIgnoringCase command entry) /\
   (forall segment,
       segmentOf command segment ->
       length (redirectionOperators segment) <= 1)) /\
  ((exists message, validateCommand command = Throw (AIError message "EMPTY_COMMAND"))
   <-> command = []).
Proof.
  assert (Seg : (forall segment,
                    segmentOf command segment ->
                    length (redirectionOperators segment) <= 1) <->
                checkSegments (splitOn is_segment_separator command) = Ok tt).
  { rewrite checkSegments_ok. split; intros H segment I; apply H;
      now apply splitOn_segmentOf. }
  rewrite Seg. change denylist with ADMIN_COMMANDS.
  rewrite <- requiresAdminPrivileges_false.
  unfold validateCommand. destruct command as [|c r].
  - split; split; [discriminate | intros [N _]; now elim N | reflexivity | eauto].
  - destruct (requiresAdminPrivileges (c :: r)).
    + split; split; try discriminate.
      * intros (_ & F & _). discriminate F.
      * intros [m H]. discriminate H.
    + split; split; try discriminate.
      * intros H. repeat split; [discriminate | assumption].
      * intros (_ & _ & H). exact H.
      * intros [m H]. apply checkSegments_throws in H. discriminate H.
Qed.

(** X2.  Changing the letter case of a command that needs administrator rights,
    or putting text around it, does not get it past the validator. *)
Theorem validateCommand_admin_embedded (command variant pre post : jsstring) :
  requiresAdminPrivileges command = true ->
  toLowerCase variant = toLowerCase command ->
  validateCommand (pre ++ variant ++ post) =
    Throw (AIError "This command requires administrator privileges" "ADMIN_REQUIRED").
Proof.
  intros A L.
  assert (R : requiresAdminPrivileges (pre ++ variant ++ post) = true).
  { apply requiresAdminPrivileges_spec in A as (entry & I & p & mid & q & -> & M).
    rewrite toLowerCase_app, toLowerCase_app in L.
    apply toLowerCase_split in L as (p' & rest & -> & _ & L).
    apply toLowerCase_split in L as (mid' & q' & -> & L & _).
    apply requiresAdminPrivileges_spec. exists entry. split; [assumption|].
    exists (pre ++ p'), mid', (q' ++ post). split; [|congruence].
    now rewrite <- !app_assoc. }
  unfold validateCommand. rewrite R.
  destruct (pre ++ variant ++ post); [discriminate R | reflexivity].
Qed.

Lemma validateCommand_admin_embedded_witness :
  validateCommand "echo off && NET USER guest /add" =
    Throw (AIError "This command requires administrator privileges" "ADMIN_REQUIRED").
Proof.
  apply (validateCommand_admin_embedded "net user" "NET USER" "echo off && " " guest /add");
    vm_compute; reflexivity.
Defined.

(** X3.  Two commands joined by [&] or [|] are accepted exactly when each of them
    is: the operators of one segment do not count against another, and no
    denylist entry forms across the separator. *)
Theorem validateCommand_chain (a b : jsstring) (sep : ascii) :
  is_segment_separator sep = true -> a <> [] -> b <> [] ->
  (validateCommand (a ++ sep :: b) = Ok tt <->
   validateCommand a = Ok tt /\ validateCommand b = Ok tt).
Proof.
  intros S NA NB. unfold validateCommand at 1.
  rewrite requiresAdminPrivileges_chain, splitOn_chain by assumption.
  destruct a as [|x a]; [congruence|]. destruct b as [|y b]; [congruence|].
  cbn [app]. unfold validateCommand.
  destruct (requiresAdminPrivileges (x :: a)), (requiresAdminPrivileges (y :: b));
    cbn [orb]; try (split; [discriminate | intros [H1 H2]; discriminate]).
  rewrite !checkSegments_ok. split.
  - intros H. split; intros seg I; apply H; apply in_or_app; auto.
  - intros [H1 H2] seg I. apply in_app_or in I as [I|I]; auto.
Qed.

Lemma validateCommand_chain_witness :
  validateCommand "dir > a.txt | type a.txt > b.txt" = Ok tt.
Proof.
  apply (proj2 (validateCommand_chain "dir > a.txt " " type a.txt > b.txt" "|"
                  eq_refl ltac:(discriminate) ltac:(discriminate))).
  split; vm_compute; reflexivity.
Defined.

(** X4.  A run of [>] is one redirection operator: a command with a single run,
    such as an appending [>>], passes the redirection check. *)
Theorem validateCommand_single_run (a b : jsstring) (n : nat) :
  (forall c, In c (a ++ b) -> c <> ">"%char /\ is_segment_separator c = false) ->
  requiresAdminPrivileges (a ++ repeat ">"%char (S n) ++ b) = false ->
  validateCommand (a ++ repeat ">"%char (S n) ++ b) = Ok tt.
Proof.
  intros H A.
  assert (Seg : forall s, (forall c, In c s -> is_segment_separator c = false) ->
                          splitOn is_segment_separator s = [s]).
  { induction s as [|c s IH]; intros F; [reflexivity|]. cbn [splitOn].
    rewrite (F c) by now left. rewrite IH; [reflexivity|].
    intros d I. apply F. now right. }
  assert (Plain : forall s f g, (forall c, In c s -> c <> ">"%char) ->
                                matchRedirections f (s ++ g) =
                                matchRedirections (match s with [] => f | _ => false end) g).
  { induction s as [|c s IH]; intros f g F; [reflexivity|]. cbn [app matchRedirections].
    destruct (Ascii.eqb_spec c ">") as [->|_]; [now elim (F ">"%char (or_introl eq_refl))|].
    rewrite IH by (intros d I; apply F; now right). now destruct s. }
  assert (Run : forall k f, matchRedirections f (repeat ">"%char k ++ b) =
                            match k with
                            | 0 => []
                            | S _ => if f then [] else [lit ">"]
                            end).
  { induction k as [|k IH]; intros f.
    - cbn [repeat app]. rewrite <- (app_nil_r b), Plain.
      + now destruct b.
      + intros c I. apply H. apply in_or_app. now right.
    - cbn [repeat app matchRedirections Ascii.eqb Bool.eqb andb]. rewrite IH.
      destruct k, f; reflexivity. }
  unfold validateCommand. rewrite A.
  destruct (a ++ repeat ">"%char (S n) ++ b) eqn:E;
    [destruct a; discriminate E|]. rewrite <- E.
  rewrite Seg.
  - cbn [checkSegments]. rewrite Plain, Run.
    + now destruct a.
    + intros c I. apply H. apply in_or_app. now left.
  - intros c I. apply in_app_or in I as [I|I].
    + apply H. apply in_or_app. now left.
    + apply in_app_or in I as [I|I].
      * apply repeat_spec in I. now subst.
      * apply H. apply in_or_app. now right.
Qed.

Lemma validateCommand_single_run_witness :
  validateCommand "echo done >> log.txt" = Ok tt.
Proof.
  apply (validateCommand_single_run "echo done " " log.txt" 1).
  - intros c I. vm_compute in I.
    repeat (destruct I as [<-|I]; [split; [discriminate | reflexivity]|]).
    destruct I.
  - vm_compute. reflexivity.
Defined.

(** ** The response extractor, further *)

Section ExtractorMore.

Lemma trim_nil_iff (s : jsstring) : trim s = [] <-> forallb is_space s = true.
Proof.
  split; [|apply trim_all_space]. unfold trim. intros E.
  destruct (trimEnd_prefix (trimStart s)) as (sp & H & F). rewrite E in H.
  destruct (trimStart s) as [|c r] eqn:T.
  - destruct (trimStart_suffix s) as (sp' & H' & F'). rewrite T, app_nil_r in H'.
    now subst.
  - apply trimStart_head in T. simpl in H. subst sp. simpl in F.
    rewrite T in F. discriminate F.
Qed.

Lemma trimStart_app (x y : jsstring) :
  trimStart (x ++ y) =
  match trimStart x with
  | [] => trimStart y
  | t => t ++ y
  end.
Proof.
  induction x as [|c x IH]; [reflexivity|]. cbn [app trimStart].
  destruct (is_space c); [assumption | reflexivity].
Qed.

Lemma trimEnd_app (a b : jsstring) :
  trimEnd (a ++ b) =
  match trimEnd b with
  | [] => trimEnd a
  | t => a ++ t
  end.
Proof.
  unfold trimEnd. rewrite rev_app_distr, trimStart_app.
  destruct (trimStart (rev b)) as [|c t]; [reflexivity|].
  rewrite rev_app_distr, rev_involutive.
  destruct (rev (c :: t)) eqn:E; [|reflexivity].
  apply (f_equal (@length _)) in E. rewrite length_rev in E. discriminate E.
Qed.

Lemma trimEnd_all_space (s : jsstring) :
  forallb is_space s = true -> trimEnd s = [].
Proof.
  intros F. unfold trimEnd. rewrite trimStart_all_space; [reflexivity|].
  rewrite forallb_forall in *. intros c I. apply F. now apply in_rev.
Qed.

(** The text is its trimmed part between two runs of white space. *)
Lemma trim_between (s : jsstring) :
  exists before after,
    s = before ++ trim s ++ after /\
    forallb is_space before = true /\ forallb is_space after = true.
Proof.
  unfold trim. destruct (trimStart_suffix s) as (sp & H & F).
  destruct (trimEnd_prefix (trimStart s)) as (sp' & H' & F').
  exists sp, sp'. rewrite <- H'. auto.
Qed.

Lemma trim_spaces_around (before core after : jsstring) :
  forallb is_space before = true -> forallb is_space after = true ->
  trim core = core -> trim (before ++ core ++ after) = core.
Proof.
  intros B A T. destruct core as [|c m].
  - rewrite app_nil_l. apply trim_all_space. rewrite forallb_app, B, A. reflexivity.
  - assert (Hc : is_space c = false) by (eapply trim_head; eassumption).
    unfold trim in *. rewrite trimStart_app, trimStart_all_space by assumption.
    rewrite trimStart_fixed in T by assumption.
    cbn [app]. rewrite trimStart_fixed by assumption.
    change (c :: m ++ after) with ((c :: m) ++ after).
    rewrite trimEnd_app, (trimEnd_all_space after) by assumption. exact T.
Qed.

Lemma splitLines_cons (c : ascii) (r : jsstring) :
  splitLines (c :: r) =
  let cons_head :=
    match splitLines r with
    | h :: t => (c :: h) :: t
    | [] => [[c]]
    end in
  if Ascii.eqb c LF then [] :: splitLines r
  else if Ascii.eqb c CR then
    match r with
    | d :: r' => if Ascii.eqb d LF then [] :: splitLines r' else cons_head
    | [] => cons_head
    end
  else cons_head.
Proof. reflexivity. Qed.

(** The first line ends at the first line feed; the carriage return in front
    of it belongs to the separator. *)
Lemma splitLines_first (x y : jsstring) :
  ~ In LF x -> splitLines (x ++ LF :: y) = stripCR x :: splitLines y.
Proof.
  induction x as [|c x IH]; intros N; [reflexivity|].
  assert (Nc : c <> LF) by (intros ->; apply N; now left).
  assert (Nx : ~ In LF x) by (intros I; apply N; now right).
  specialize (IH Nx). cbn [app]. rewrite splitLines_cons. cbv zeta.
  destruct (Ascii.eqb_spec c LF) as [|_]; [contradiction|].
  destruct x as [|d x].
  - cbn [app] in *. rewrite IH. cbn [stripCR].
    destruct (Ascii.eqb c CR); reflexivity.
  - assert (Nd : d <> LF) by (intros ->; apply Nx; now left).
    cbn [app] in *. rewrite IH.
    destruct (Ascii.eqb_spec d LF) as [|_]; [contradiction|].
    now destruct (Ascii.eqb c CR).
Qed.

Lemma splitLines_single (x : jsstring) : ~ In LF x -> splitLines x = [x].
Proof.
  induction x as [|c x IH]; intros N; [reflexivity|].
  assert (Nc : c <> LF) by (intros ->; apply N; now left).
  assert (Nx : ~ In LF x) by (intros I; apply N; now right).
  rewrite splitLines_cons. cbv zeta. rewrite (IH Nx).
  destruct (Ascii.eqb_spec c LF) as [|_]; [contradiction|].
  destruct x as [|d x]; [now destruct (Ascii.eqb c CR)|].
  destruct (Ascii.eqb_spec d LF) as [->|_]; [elim Nx; now left|].
  now destruct (Ascii.eqb c CR).
Qed.

Lemma stripCR_spaces (x : jsstring) :
  exists sp, x = stripCR x ++ sp /\ forallb is_space sp = true.
Proof.
  induction x as [|c x (sp & E & F)]; [now exists []|].
  destruct x as [|d x].
  - cbn [stripCR]. destruct (Ascii.eqb_spec c CR) as [->|_].
    + now exists [CR].
    + now exists [].
  - exists sp. split; [|assumption].
    change (stripCR (c :: d :: x)) with (c :: stripCR (d :: x)).
    cbn [app]. now rewrite <- E.
Qed.

Lemma collapse_of_trim (s : jsstring) :
  removeCommandRepetitions (trim s) = removeCommandRepetitions s.
Proof. unfold removeCommandRepetitions. now rewrite trim_idempotent. Qed.

End ExtractorMore.

(** X5.  The extractor reports [EMPTY_COMMAND] exactly when the content is
    present, is not the empty string and consists of white space only. *)
Theorem validateResponse_empty_command (data : option OpenRouterResponse) :
  (exists message, validateResponse data = Throw (AIError message "EMPTY_COMMAND"))
  <-> exists raw,
        contentPath data = Some raw /\ raw <> [] /\ forallb is_space raw = true.
Proof.
  unfold validateResponse. destruct (contentPath data) as [[|c r]|].
  - split; [intros [m H]; discriminate H | intros (raw & [= <-] & N & _); now elim N].
  - destruct (trim (c :: r)) as [|a t] eqn:T.
    + split; [|eauto]. intros _. exists (c :: r).
      repeat split; [discriminate | now apply trim_nil_iff].
    + assert (N : trim (c :: r) <> []) by (rewrite T; discriminate).
      destruct (first_line_found _ N) as (line & F & _). rewrite T in F. rewrite F.
      split; [intros [m H]; discriminate H|].
      intros (raw & [= <-] & _ & S). apply trim_nil_iff in S. congruence.
  - split; [intros [m H]; discriminate H | intros (raw & H & _); discriminate H].
Qed.

(** X6.  Only the first line that is not blank counts: white space and blank
    lines in front of it are skipped, and what follows its line break is
    ignored. *)
Theorem validateResponse_first_line (blank line rest : jsstring) :
  forallb is_space blank = true ->
  ~ In LF line -> trim line <> [] ->
  validateResponse (Some (completion (blank ++ line))) =
    Ok (removeCommandRepetitions line) /\
  validateResponse (Some (completion (blank ++ line ++ LF :: rest))) =
    Ok (removeCommandRepetitions line).
Proof.
  intros B NL NE.
  destruct (trim_between line) as (sp1 & sp2 & E & F1 & F2).
  rewrite <- (collapse_of_trim line).
  assert (Tc : trim (trim line) = trim line) by apply trim_idempotent.
  assert (NLc : ~ In LF (trim line)) by (intros I; apply NL; now apply trim_In).
  revert E NE Tc NLc. generalize (trim line) as core. intros core E NE Tc NLc.
  assert (Pos : (0 <? length core) = true) by (destruct core; [congruence | reflexivity]).
  assert (Single : forall text,
             text <> [] -> trim text = core ->
             validateResponse (Some (completion text)) =
               Ok (removeCommandRepetitions core)).
  { intros text NC T. unfold validateResponse.
    cbn [contentPath completion choices message content].
    destruct text; [congruence|]. rewrite T.
    destruct core as [|c m] eqn:C; [congruence|]. rewrite <- C in *.
    rewrite (splitLines_single core NLc). cbn [map find]. now rewrite Tc, Pos. }
  assert (NEl : line <> []) by (intros ->; destruct sp1; discriminate E || (now destruct core)).
  split.
  - apply Single; [destruct blank, line; simpl; congruence|].
    rewrite E, app_assoc.
    apply trim_spaces_around; try assumption.
    rewrite forallb_app, B, F1. reflexivity.
  - destruct (trimEnd (LF :: rest)) as [|l t] eqn:R.
    + apply Single; [destruct blank, line; simpl; congruence|].
      rewrite E, <- !app_assoc. rewrite app_assoc.
      apply trim_spaces_around; try assumption.
      * rewrite forallb_app, B, F1. reflexivity.
      * rewrite forallb_app, F2. cbn [andb].
        destruct (trimEnd_prefix (LF :: rest)) as (sp & H & F). rewrite R in H.
        simpl in H. now rewrite H.
    + assert (l = LF) as ->.
      { destruct (trimEnd_prefix (LF :: rest)) as (sp & H & _). rewrite R in H.
        simpl in H. now injection H. }
      assert (T : trim (blank ++ line ++ LF :: rest) = (core ++ sp2) ++ LF :: t).
      { rewrite E. unfold trim.
        rewrite trimStart_app, (trimStart_all_space blank B).
        rewrite <- !app_assoc, trimStart_app, (trimStart_all_space sp1 F1).
        destruct core as [|c m] eqn:C; [congruence|].
        assert (Hc : is_space c = false) by (eapply trim_head; eassumption).
        cbn [app]. rewrite trimStart_fixed by assumption.
        change (c :: m ++ sp2 ++ LF :: rest) with ((c :: m) ++ sp2 ++ LF :: rest).
        rewrite trimEnd_app, trimEnd_app, R. now destruct sp2. }
      unfold validateResponse. cbn [contentPath completion choices message content].
      destruct (blank ++ line ++ LF :: rest) eqn:Q;
        [destruct blank, line; discriminate Q|]. rewrite T.
      destruct ((core ++ sp2) ++ LF :: t) eqn:Q2;
        [destruct (core ++ sp2); discriminate Q2|]. rewrite <- Q2.
      rewrite splitLines_first.
      * cbn [map find].
        assert (TS : trim (stripCR (core ++ sp2)) = core).
        { destruct (stripCR_spaces (core ++ sp2)) as (sp & H & F).
          assert (K : trim (core ++ sp2) = core)
            by (apply (trim_spaces_around [] core sp2); auto).
          rewrite <- K at 2. rewrite H at 2.
          destruct (trim_between (stripCR (core ++ sp2))) as (u & v & H2 & Fu & Fv).
          rewrite H2 at 2. rewrite <- !app_assoc.
          symmetry. apply trim_spaces_around; [assumption | | apply trim_idempotent].
          rewrite forallb_app, Fv, F. reflexivity. }
        now rewrite TS, Pos.
      * intros I. apply in_app_or in I as [I|I]; [now apply NLc|].
        apply NL. rewrite E. apply in_or_app. right. apply in_or_app. now right.
Qed.

Lemma validateResponse_first_line_witness :
  validateResponse
    (Some (completion (lit " " ++ [LF] ++ lit "  dir /b " ++ [CR; LF] ++ lit "This lists the files.")))
  = Ok (lit "dir /b").
Proof.
  refine (proj2 (validateResponse_first_line (lit " " ++ [LF]) (lit "  dir /b " ++ [CR])
                   "This lists the files." _ _ _)).
  - reflexivity.
  - vm_compute. intuition congruence.
  - vm_compute. discriminate.
Defined.

(** ** The remote completion client, for every network *)

Section ClientMore.

Variable network : nat -> FetchOutcome.

(** The loop, attempt by attempt. *)
Lemma fetchWithRetry_unfold (w : World) :
  fetchWithRetry network w =
  let w1 := record Fetch w in
  match attempt (network (calls w)) with
  | Ok r => (Ok r, w1)
  | Throw e1 =>
      if isAbortError e1 then (Throw timedOut, w1)
      else
        let w2 := record Fetch (record (Sleep 1000) w1) in
        match attempt (network (S (calls w))) with
        | Ok r => (Ok r, w2)
        | Throw e2 =>
            if isAbortError e2 then (Throw timedOut, w2)
            else
              let w3 := record Fetch (record (Sleep 2000) w2) in
              match attempt (network (S (S (calls w)))) with
              | Ok r => (Ok r, w3)
              | Throw e3 =>
                  if isAbortError e3 then (Throw timedOut, w3)
                  else (Throw (maxRetriesExceeded (Some (asError e3))), w3)
              end
        end
  end.
Proof.
  unfold fetchWithRetry. cbn [seq MAX_RETRIES retryLoop fetch].
  destruct (attempt (network (calls w))) as [r|e1]; [reflexivity|].
  destruct (isAbortError e1); [reflexivity|].
  cbn [Nat.eqb RETRY_DELAY Nat.mul Nat.add calls record].
  destruct (attempt (network (S (calls w)))) as [r|e2]; [reflexivity|].
  destruct (isAbortError e2); [reflexivity|].
  cbn [Nat.eqb RETRY_DELAY Nat.mul Nat.add calls record].
  destruct (attempt (network (S (S (calls w))))) as [r|e3]; [reflexivity|].
  destruct (isAbortError e3); reflexivity.
Qed.

Lemma attempt_ok (outcome : FetchOutcome) (r : Response) :
  attempt outcome = Ok r -> outcome = Resolved r /\ ok r = true.
Proof.
  destruct outcome as [response|e]; cbn [attempt]; [|discriminate].
  destruct (ok response) eqn:O; cbn [negb].
  - intros [= <-]. auto.
  - destruct (text response); discriminate.
Qed.

(** What the client hands back: a response that one of its at most three
    calls received, or one of its own two errors. *)
Lemma fetchWithRetry_outcome (w : World) :
  match fst (fetchWithRetry network w) with
  | Ok r =>
      ok r = true /\
      exists n, calls w <= n < calls w + MAX_RETRIES /\ network n = Resolved r
  | Throw e =>
      e = timedOut \/
      exists message, e = AIError message "MAX_RETRIES_EXCEEDED"
  end.
Proof.
  rewrite fetchWithRetry_unfold. cbv zeta. unfold MAX_RETRIES.
  destruct (attempt (network (calls w))) as [r|e1] eqn:A1.
  { apply attempt_ok in A1 as [A1 O]. cbn [fst]. split; [assumption|].
    exists (calls w). split; [lia | assumption]. }
  destruct (isAbortError e1); [cbn [fst]; now left|].
  destruct (attempt (network (S (calls w)))) as [r|e2] eqn:A2.
  { apply attempt_ok in A2 as [A2 O]. cbn [fst]. split; [assumption|].
    exists (S (calls w)). split; [lia | assumption]. }
  destruct (isAbortError e2); [cbn [fst]; now left|].
  destruct (attempt (network (S (S (calls w))))) as [r|e3] eqn:A3.
  { apply attempt_ok in A3 as [A3 O]. cbn [fst]. split; [assumption|].
    exists (S (S (calls w))). split; [lia | assumption]. }
  destruct (isAbortError e3); cbn [fst]; [now left | right].
  unfold maxRetriesExceeded. eauto.
Qed.

Lemma fetchWithRetry_trace (w : World) :
  exists trace,
    In trace [[Fetch]; [Fetch; Sleep 1000; Fetch];
              [Fetch; Sleep 1000; Fetch; Sleep 2000; Fetch]] /\
    log (snd (fetchWithRetry network w)) = log w ++ trace /\
    calls (snd (fetchWithRetry network w)) =
      calls w + fetches trace.
Proof.
  rewrite fetchWithRetry_unfold. cbv zeta. unfold fetches.
  assert (T1 : exists trace,
             In trace [[Fetch]; [Fetch; Sleep 1000; Fetch];
                       [Fetch; Sleep 1000; Fetch; Sleep 2000; Fetch]] /\
             log (record Fetch w) = log w ++ trace /\
             calls (record Fetch w) =
               calls w + length (filter (fun e => match e with Fetch => true | _ => false end) trace)).
  { exists [Fetch]. cbn. repeat split; [auto | lia]. }
  assert (T2 : exists trace,
             In trace [[Fetch]; [Fetch; Sleep 1000; Fetch];
                       [Fetch; Sleep 1000; Fetch; Sleep 2000; Fetch]] /\
             log (record Fetch (record (Sleep 1000) (record Fetch w))) = log w ++ trace /\
             calls (record Fetch (record (Sleep 1000) (record Fetch w))) =
               calls w + length (filter (fun e => match e with Fetch => true | _ => false end) trace)).
  { exists [Fetch; Sleep 1000; Fetch]. cbn. rewrite <- !app_assoc.
    repeat split; [auto | lia]. }
  assert (T3 : exists trace,
             In trace [[Fetch]; [Fetch; Sleep 1000; Fetch];
                       [Fetch; Sleep 1000; Fetch; Sleep 2000; Fetch]] /\
             log (record Fetch (record (Sleep 2000)
                    (record Fetch (record (Sleep 1000) (record Fetch w))))) = log w ++ trace /\
             calls (record Fetch (record (Sleep 2000)
                    (record Fetch (record (Sleep 1000) (record Fetch w))))) =
               calls w + length (filter (fun e => match e with Fetch => true | _ => false end) trace)).
  { exists [Fetch; Sleep 1000; Fetch; Sleep 2000; Fetch]. cbn. rewrite <- !app_assoc.
    repeat split; [auto 10 | lia]. }
  destruct (attempt (network (calls w))) as [r|e1]; [exact T1|].
  destruct (isAbortError e1); [exact T1|].
  destruct (attempt (network (S (calls w)))) as [r|e2]; [exact T2|].
  destruct (isAbortError e2); [exact T2|].
  destruct (attempt (network (S (S (calls w))))) as [r|e3]; [exact T3|].
  destruct (isAbortError e3); exact T3.
Qed.

End ClientMore.

(** X7.  Whatever the network does, the client makes one, two or three calls,
    waits no more than 3000 ms between them in all, and ends on a call:
    it never waits after its last attempt. *)
Theorem fetchWithRetry_bounded (network : nat -> FetchOutcome) (w : World) :
  exists trace,
    log (snd (fetchWithRetry network w)) = log w ++ trace /\
    calls (snd (fetchWithRetry network w)) = calls w + fetches trace /\
    1 <= fetches trace <= MAX_RETRIES /\
    slept trace <= 3000 /\
    last trace (Sleep 0) = Fetch.
Proof.
  destruct (fetchWithRetry_trace network w) as (trace & I & L & C).
  exists trace. split; [assumption|]. split; [assumption|].
  destruct I as [<-|[<-|[<-|[]]]]; cbn; unfold MAX_RETRIES; repeat split; lia.
Qed.

(** X8.  A response that the client returns is a 2xx response that one of its
    calls received; the only errors it raises are [TIMEOUT] and
    [MAX_RETRIES_EXCEEDED], so that [API_ERROR] never reaches the caller as
    a code. *)
Theorem fetchWithRetry_result (network : nat -> FetchOutcome) (w : World) :
  (forall r,
      fst (fetchWithRetry network w) = Ok r ->
      ok r = true /\
      exists n, calls w <= n < calls w + MAX_RETRIES /\ network n = Resolved r) /\
  (forall e,
      fst (fetchWithRetry network w) = Throw e ->
      exists message,
        e = AIError message "TIMEOUT" \/ e = AIError message "MAX_RETRIES_EXCEEDED").
Proof.
  pose proof (fetchWithRetry_outcome network w) as O.
  destruct (fst (fetchWithRetry network w)) as [r|e]; split.
  - now intros r' [= <-].
  - discriminate.
  - discriminate.
  - intros e' [= <-]. destruct O as [->|[m ->]].
    + exists (lit "Request timed out"). now left.
    + exists m. now right.
Qed.

Lemma fetchWithRetry_result_witness :
  exists message,
    AIError "Failed after 3 attempts: API returned 500: down" "MAX_RETRIES_EXCEEDED" =
      AIError message "TIMEOUT" \/
    AIError "Failed after 3 attempts: API returned 500: down" "MAX_RETRIES_EXCEEDED" =
      AIError message "MAX_RETRIES_EXCEEDED".
Proof.
  apply (proj2 (fetchWithRetry_result failingNetwork initial)).
  vm_compute. reflexivity.
Defined.

(** X9.  The client recovers: when the attempts before the [k]-th fail without a
    timeout and that one gets a 2xx response, the response is returned after
    the back-off delays of the failed attempts. *)
Theorem fetchWithRetry_recovers
  (network : nat -> FetchOutcome) (w : World) (k : nat) (r : Response) :
  k < MAX_RETRIES ->
  (forall j, j < k -> exists e, failsWith (network (calls w + j)) e) ->
  network (calls w + k) = Resolved r -> ok r = true ->
  fetchWithRetry network w =
    (Ok r,
     {| calls := calls w + S k;
        log := log w ++
               flat_map (fun j => [Fetch; Sleep (RETRY_DELAY * S j)]) (seq 0 k) ++
               [Fetch] |}).
Proof.
  intros K F R O. rewrite fetchWithRetry_unfold. cbv zeta.
  assert (A : attempt (network (calls w + k)) = Ok r)
    by (rewrite R; cbn [attempt]; now rewrite O).
  unfold record, failsWith in *. cbn [calls log].
  destruct k as [|[|[|k]]]; [| | |unfold MAX_RETRIES in K; lia].
  - rewrite Nat.add_0_r in A. rewrite A. cbn. now rewrite Nat.add_1_r.
  - destruct (F 0) as (e1 & A1 & T1); [lia|]. rewrite Nat.add_0_r in A1.
    rewrite Nat.add_1_r in A. rewrite A1, T1, A. cbn.
    rewrite <- !app_assoc. do 2 f_equal. lia.
  - destruct (F 0) as (e1 & A1 & T1); [lia|]. rewrite Nat.add_0_r in A1.
    destruct (F 1) as (e2 & A2 & T2); [lia|]. rewrite Nat.add_1_r in A2.
    replace (calls w + 2) with (S (S (calls w))) in A by lia.
    rewrite A1, T1, A2, T2, A. cbn.
    rewrite <- !app_assoc. do 2 f_equal. lia.
Qed.

(** A network that answers 503 and then with the completion [dir /b]. *)
Lemma fetchWithRetry_recovers_witness :
  fst (fetchWithRetry
         (fun n => match n with 0 => failingNetwork 0 | _ => answering "dir /b" n end)
         initial) =
  Ok {| ok := true; status := 200; text := Ok [];
        json := Ok (Some (completion "dir /b")) |}.
Proof.
  rewrite (fetchWithRetry_recovers _ initial 1
             {| ok := true; status := 200; text := Ok [];
                json := Ok (Some (completion "dir /b")) |}).
  - reflexivity.
  - unfold MAX_RETRIES. lia.
  - intros j J. exists (AIError "API returned 503: busy" "API_ERROR").
    destruct j; [split; reflexivity | lia].
  - reflexivity.
  - reflexivity.
Defined.

(** ** The entry point, for every network *)

Section EntryMore.

Lemma validateResponse_ok (data : option OpenRouterResponse) (command : jsstring) :
  validateResponse data = Ok command ->
  command <> [] /\ trim command = command /\ ~ In LF command.
Proof.
  unfold validateResponse. destruct (contentPath data) as [[|c r]|]; try discriminate.
  destruct (trim (c :: r)) as [|a t] eqn:T; [discriminate|].
  assert (N : trim (c :: r) <> []) by (rewrite T; discriminate).
  destruct (first_line_found _ N) as (line & F & NE & Tl & NL).
  rewrite T in F. rewrite F. intros [= <-]. split; [|split].
  - apply collapse_nonempty. now rewrite Tl.
  - apply collapse_trimmed.
  - intros I. now apply collapse_In in I.
Qed.

Lemma validateResponse_throws (data : option OpenRouterResponse) (e : Thrown) :
  validateResponse data = Throw e ->
  exists message,
    e = AIError message "INVALID_RESPONSE" \/ e = AIError message "EMPTY_COMMAND".
Proof.
  unfold validateResponse. destruct (contentPath data) as [[|c r]|].
  - intros [= <-]. eauto.
  - destruct (trim (c :: r)); [intros [= <-]; eauto|].
    destruct (find _ _); [discriminate | intros [= <-]; eauto].
  - intros [= <-]. eauto.
Qed.

Lemma validateCommand_throws (command : jsstring) (e : Thrown) :
  validateCommand command = Throw e ->
  exists message,
    e = AIError message "EMPTY_COMMAND" \/ e = AIError message "ADMIN_REQUIRED" \/
    e = AIError message "INVALID_REDIRECTION".
Proof.
  unfold validateCommand. destruct command as [|c r]; [intros [= <-]; eauto|].
  destruct (requiresAdminPrivileges (c :: r)); [intros [= <-]; eauto|].
  intros H. apply checkSegments_throws in H. subst. eauto.
Qed.

(** What [generateCommand] does once the input is not blank. *)
Lemma generateCommand_unfold
  (network : nat -> FetchOutcome) (userInput : jsstring) (w : World) :
  trim userInput <> [] ->
  generateCommand network userInput w =
  (rethrow (response <- fst (fetchWithRetry network w) ;;
            data <- json response ;;
            command <- validateResponse data ;;
            validateCommand command ;;;
            Ok command),
   snd (fetchWithRetry network w)).
Proof.
  intros N. unfold generateCommand. destruct (trim userInput); [congruence|].
  now destruct (fetchWithRetry network w).
Qed.

Lemma generateCommand_blank
  (network : nat -> FetchOutcome) (userInput : jsstring) (w : World) :
  trim userInput = [] ->
  generateCommand network userInput w =
  (Throw (AIError "User input is required" "INVALID_INPUT"), w).
Proof. intros E. unfold generateCommand. now rewrite E. Qed.

Lemma rethrow_ok {A} (r : Result A) (a : A) : rethrow r = Ok a -> r = Ok a.
Proof. destruct r as [|[| |]]; cbn; congruence. Qed.

End EntryMore.

(** X10.  Every command that [generateCommand] returns has passed the validator:
    it is not empty, holds no entry of [ADMIN_COMMANDS] in any letter case,
    and has at most one redirection operator in each segment.  It has no
    white space at its ends and no line feed, and it took at most three
    calls to get it. *)
Theorem generateCommand_returns_validated
  (network : nat -> FetchOutcome) (userInput command : jsstring) (w w' : World) :
  generateCommand network userInput w = (Ok command, w') ->
  validateCommand command = Ok tt /\
  (forall entry, In entry ADMIN_COMMANDS -> ~ containsIgnoringCase command entry) /\
  (forall segment,
      In segment (splitOn is_segment_separator command) ->
      length (redirectionOperators segment) <= 1) /\
  command <> [] /\ trim command = command /\ ~ In LF command /\
  calls w < calls w' <= calls w + MAX_RETRIES.
Proof.
  intros G.
  destruct (trim userInput) as [|c t] eqn:T;
    [rewrite generateCommand_blank in G by assumption; discriminate G|].
  rewrite generateCommand_unfold in G by (rewrite T; discriminate).
  injection G as G W. apply rethrow_ok in G.
  destruct (fst (fetchWithRetry network w)) as [r|]; [|discriminate G].
  cbn [bind] in G. destruct (json r) as [data|]; [|discriminate G].
  cbn [bind] in G. destruct (validateResponse data) as [cmd|] eqn:V; [|discriminate G].
  cbn [bind] in G. destruct (validateCommand cmd) as [[]|] eqn:C; [|discriminate G].
  cbn [bind] in G. injection G as ->.
  destruct (validateResponse_ok _ _ V) as (NE & Tr & NL).
  assert (A : requiresAdminPrivileges command = false).
  { unfold validateCommand in C. destruct command; [discriminate C|].
    destruct (requiresAdminPrivileges _); [discriminate C | reflexivity]. }
  assert (S : checkSegments (splitOn is_segment_separator command) = Ok tt).
  { unfold validateCommand in C. destruct command; [discriminate C|].
    now rewrite A in C. }
  split; [assumption|]. split; [now apply requiresAdminPrivileges_false|].
  split; [now apply checkSegments_ok|]. repeat (split; [assumption|]).
  destruct (fetchWithRetry_trace network w) as (trace & I & _ & K).
  rewrite W in K. rewrite K. unfold MAX_RETRIES.
  destruct I as [<-|[<-|[<-|[]]]]; cbn; lia.
Qed.

Lemma generateCommand_returns_validated_witness :
  validateCommand "dir /b" = Ok tt.
Proof.
  refine (proj1 (generateCommand_returns_validated
                   (answering (lit "dir /b" ++ [LF] ++ lit "dir /b")) "list the files" "dir /b"
                   initial {| calls := 1; log := [Fetch] |} _)).
  vm_compute. reflexivity.
Defined.

(** X11.  When the body of a response fails only with errors that are not the
    service's own, [generateCommand] raises either one of seven codes or
    the unexpected error: [API_ERROR] and [INVALID_COMMAND] are never
    raised. *)
Theorem generateCommand_raises
  (network : nat -> FetchOutcome) (userInput : jsstring) (w w' : World) (e : Thrown) :
  foreignBodyErrors network ->
  generateCommand network userInput w = (Throw e, w') ->
  e = unexpected \/
  exists message code, e = AIError message code /\ In code raisedCodes.
Proof.
  intros FB G.
  destruct (trim userInput) as [|c t] eqn:T.
  { rewrite generateCommand_blank in G by assumption. injection G as <- _.
    right. eexists _, _. split; [reflexivity | simpl; auto]. }
  rewrite generateCommand_unfold in G by (rewrite T; discriminate).
  injection G as G _.
  pose proof (fetchWithRetry_outcome network w) as O.
  destruct (fst (fetchWithRetry network w)) as [r|e0].
  - destruct O as (_ & n & _ & R). cbn [bind] in G.
    destruct (json r) as [data|[m c0|n0 m|]] eqn:J.
    + cbn [bind] in G. destruct (validateResponse data) as [cmd|e1] eqn:V.
      * cbn [bind] in G. destruct (validateCommand cmd) as [[]|e2] eqn:C;
          [discriminate G|]. cbn [bind] in G.
        apply validateCommand_throws in C as [m [->|[->| ->]]];
          cbn in G; injection G as <-; right; eexists _, _;
          (split; [reflexivity | simpl; auto 10]).
      * cbn [bind] in G. apply validateResponse_throws in V as [m [->| ->]];
          cbn in G; injection G as <-; right; eexists _, _;
          (split; [reflexivity | simpl; auto 10]).
    + now elim (FB n r m c0 R).
    + cbn in G. injection G as <-. now left.
    + cbn in G. injection G as <-. now left.
  - cbn [bind] in G. destruct O as [->|[m ->]]; cbn in G; injection G as <-;
      right; eexists _, _; (split; [reflexivity | simpl; auto 10]).
Qed.

Lemma generateCommand_raises_witness :
  AIError "This command requires administrator privileges" "ADMIN_REQUIRED" = unexpected \/
  exists message code,
    AIError "This command requires administrator privileges" "ADMIN_REQUIRED" =
      AIError message code /\ In code raisedCodes.
Proof.
  apply (generateCommand_raises (answering "net user") "show the users" initial
           {| calls := 1; log := [Fetch] |}).
  - intros n response message code [= <-]. discriminate.
  - vm_compute. reflexivity.
Defined.

(** ** Running the command *)

Section Running.

Variable shell : jsstring -> Shell.ExecOutcome.

(** The names the preload script looks for are names of the validator, and a
    command that starts with one contains it. *)
Lemma preload_gate_weaker (command : jsstring) :
  Preload.requiresAdmin command = true -> requiresAdminPrivileges command = true.
Proof.
  unfold Preload.requiresAdmin, requiresAdminPrivileges.
  rewrite !existsb_exists. intros (cmd & I & S). exists cmd. split.
  - unfold Preload.adminCommands in I. unfold ADMIN_COMMANDS.
    repeat (destruct I as [<-|I]; [simpl; auto 20|]). destruct I.
  - apply startsWith_spec in S as [tail S]. apply includes_spec.
    exists [], tail. exact S.
Qed.


End Running.

(** X12.  A command that the validator accepts is never refused by the preload
    script, which then does what [executeCommand] of the command service
    does: its promise is rejected when [exec] throws, and resolves with the
    same result otherwise. *)
Theorem preload_runs_validated
  (shell : jsstring -> Shell.ExecOutcome) (command : jsstring) (ran : list jsstring) :
  validateCommand command = Ok tt ->
  Preload.executeCommand shell command ran = Shell.executeCommand shell command ran.
Proof.
  intros V. unfold Preload.executeCommand, Shell.executeCommand.
  destruct (Preload.requiresAdmin command) eqn:G; [|reflexivity].
  apply preload_gate_weaker in G. unfold validateCommand in V.
  destruct command; [discriminate V|]. rewrite G in V. discriminate V.
Qed.

Lemma preload_runs_validated_witness :
  Preload.executeCommand (fun _ => Shell.CallsBack None [] (lit "done")) "dir /b" [] =
  (Ok {| Shell.success := true; Shell.output := lit "done"; Shell.error := None |},
   [lit "dir /b"]).
Proof.
  rewrite preload_runs_validated; [reflexivity | vm_compute; reflexivity].
Defined.



(** ** The command line program *)

Section Program.

Variable network : nat -> FetchOutcome.
Variable shell : jsstring -> Shell.ExecOutcome.

Lemma action_ran (query command : jsstring) (w : World)
      (execError : option jsstring) (stdout stderr : jsstring) :
  generateCommand network query initial = (Ok command, w) ->
  shell command = Shell.CallsBack execError stdout stderr ->
  Cli.executed (Cli.action network shell query) = [command] /\
  Cli.exitCode (Cli.action network shell query) = None /\
  Cli.fetched (Cli.action network shell query) = calls w /\
  exists rest,
    Cli.printed (Cli.action network shell query) =
      [Cli.Generating; Cli.CommandLine command; Cli.Executing] ++ rest.
Proof.
  intros G E. unfold Cli.action, Shell.executeCommand. rewrite G, E. cbn. eauto.
Qed.

Lemma action_exec_throws (query command : jsstring) (w : World) (e : Thrown) :
  generateCommand network query initial = (Ok command, w) ->
  shell command = Shell.Throws e ->
  Cli.action network shell query =
    {| Cli.printed :=
         [Cli.Generating; Cli.CommandLine command; Cli.Executing;
          Cli.Failure (Cli.errorMessage e)];
       Cli.executed := [];
       Cli.fetched := calls w;
       Cli.exitCode := Some 1 |}.
Proof.
  intros G E. unfold Cli.action, Shell.executeCommand. now rewrite G, E.
Qed.

Lemma action_throw (query : jsstring) (e : Thrown) (w : World) :
  generateCommand network query initial = (Throw e, w) ->
  Cli.action network shell query =
    {| Cli.printed := [Cli.Generating; Cli.Failure (Cli.errorMessage e)];
       Cli.executed := [];
       Cli.fetched := calls w;
       Cli.exitCode := Some 1 |}.
Proof. intros G. unfold Cli.action. now rewrite G. Qed.

Lemma action_fetched (query : jsstring) :
  Cli.fetched (Cli.action network shell query) =
  calls (snd (generateCommand network query initial)).
Proof.
  unfold Cli.action. destruct (generateCommand network query initial) as [[cmd|e] w];
    [|reflexivity].
  destruct (Shell.executeCommand shell cmd []) as [[result|e] ran]; reflexivity.
Qed.

End Program.

(** X14.  The program hands the shell at most one command, and only a command
    that [generateCommand] returned: one the validator accepts, obtained
    with at most three calls. *)
Theorem action_executes_validated
  (network : nat -> FetchOutcome) (shell : jsstring -> Shell.ExecOutcome)
  (query command : jsstring) :
  In command (Cli.executed (Cli.action network shell query)) ->
  Cli.executed (Cli.action network shell query) = [command] /\
  validateCommand command = Ok tt /\
  fst (generateCommand network query initial) = Ok command /\
  Cli.fetched (Cli.action network shell query) <= MAX_RETRIES.
Proof.
  intros I. rewrite action_fetched.
  destruct (generateCommand network query initial) as [[cmd|e] w] eqn:G.
  - destruct (shell cmd) as [thrown|execError stdout stderr] eqn:X;
      [rewrite (action_exec_throws network shell query cmd w thrown G X) in I;
       destruct I|].
    destruct (action_ran network shell query cmd w _ _ _ G X) as (E & _).
    rewrite E in I. destruct I as [<-|[]]. cbn [snd].
    split; [assumption|]. split; [|split; [reflexivity|]].
    + destruct (trim query) as [|c t] eqn:T;
        [rewrite generateCommand_blank in G by assumption; discriminate G|].
      rewrite generateCommand_unfold in G by (rewrite T; discriminate).
      injection G as G _. apply rethrow_ok in G.
      destruct (fst (fetchWithRetry network initial)); [|discriminate G].
      cbn [bind] in G. destruct (json a); [|discriminate G].
      cbn [bind] in G. destruct (validateResponse a0); [|discriminate G].
      cbn [bind] in G. destruct (validateCommand a1) as [[]|] eqn:V; [|discriminate G].
      cbn [bind] in G. now injection G as ->.
    + destruct (trim query) as [|c t] eqn:T;
        [rewrite generateCommand_blank in G by assumption; discriminate G|].
      rewrite generateCommand_unfold in G by (rewrite T; discriminate).
      injection G as _ <-.
      destruct (fetchWithRetry_trace network initial) as (trace & J & _ & K).
      rewrite K. unfold MAX_RETRIES.
      destruct J as [<-|[<-|[<-|[]]]]; cbn; lia.
  - rewrite (action_throw network shell query e w G) in I. destruct I.
Qed.

Lemma action_executes_validated_witness :
  validateCommand "dir /b" = Ok tt.
Proof.
  refine (proj1 (proj2 (action_executes_validated
                   (answering "dir /b")
                   (fun _ => Shell.CallsBack None (lit "a.txt") [])
                   "list the files" "dir /b" _))).
  vm_compute. now left.
Defined.



(** X16.  The confirmation is given by the answers [y] and [Y] and by no other:
    the answer is not trimmed, and [yes] is a refusal. *)
Theorem promptConfirmation_yes (answer : jsstring) :
  Cli.promptConfirmation answer = true <-> answer = lit "y" \/ answer = lit "Y".
Proof.
  unfold Cli.promptConfirmation. rewrite eqb_eq. split.
  - destruct answer as [|c [|d r]]; try discriminate.
    cbn. intros [= E]. revert E.
    destruct c as [[] [] [] [] [] [] [] []]; vm_compute; intros E;
      try discriminate E; auto.
  - intros [->| ->]; reflexivity.
Qed.

(** ** The normaliser, for every input *)

Section NormaliserMore.

Lemma schemeSlashes_cons (c d : ascii) (r : jsstring) :
  schemeSlashes (c :: d :: r) =
  (negb (Ascii.eqb c "/" && Ascii.eqb d "/") || afterScheme r) &&
  schemeSlashes (d :: r).
Proof. reflexivity. Qed.

Lemma rewritten_afterScheme (read written : jsstring) :
  Rewritten read written -> afterScheme read = true -> afterScheme written = true.
Proof.
  intros R A. unfold afterScheme in *. apply orb_true_iff in A.
  apply orb_true_iff. destruct A as [A|A]; [left | right];
    apply startsWith_spec in A as [tail ->]; apply startsWith_spec;
    cbv [lit list_ascii_of_string rev app] in R |- *;
    repeat match goal with
           | H : Rewritten (_ :: _) _ |- _ => inversion H; clear H; subst
           end;
    eauto.
Qed.

(** The rewriting keeps the text written so far free of a double slash
    except behind a scheme. *)
Lemma fixSeparators_schemeSlashes (n : nat) :
  forall s read written,
    length s <= n ->
    Rewritten read written ->
    schemeSlashes written = true ->
    (forall w r, written = "/"%char :: w -> s = "/"%char :: r -> afterScheme w = true) ->
    schemeSlashes (rev (fixSeparators read s) ++ written) = true.
Proof.
  induction n as [|n IH]; intros s read written L R W G.
  - destruct s; [assumption | simpl in L; lia].
  - destruct s as [|c [|d r]]; [assumption| |].
    + cbn [fixSeparators rev app]. destruct written as [|w0 w]; [reflexivity|].
      rewrite schemeSlashes_cons, W, andb_true_r.
      destruct (Ascii.eqb_spec c "/") as [->|_]; [|reflexivity].
      destruct (Ascii.eqb_spec w0 "/") as [->|_]; [|reflexivity].
      cbn [andb negb orb]. now apply (G w []).
    + rewrite fixSeparators_cons.
      destruct (Ascii.eqb_spec c "/") as [->|Nc];
        [destruct (Ascii.eqb_spec d "/") as [->|Nd];
         [destruct (afterScheme read) eqn:A|]|]; cbn [andb negb].
      * (* a double slash behind a scheme: kept *)
        cbn [rev]. rewrite <- app_assoc. cbn [app].
        apply IH; [simpl in L |- *; lia | now constructor | |].
        -- destruct written as [|w0 w]; [reflexivity|].
           rewrite schemeSlashes_cons, W, andb_true_r.
           destruct (Ascii.eqb_spec w0 "/") as [->|_]; [|reflexivity].
           cbn [andb negb orb]. now apply (G w ("/"%char :: r)).
        -- intros w r0 [= <-] _. now apply (rewritten_afterScheme read).
      * (* a double slash elsewhere: rewritten *)
        cbn [rev]. rewrite <- app_assoc. cbn [app].
        apply IH; [simpl in L |- *; lia | now constructor | |].
        -- destruct written as [|w0 w]; [reflexivity|].
           now rewrite schemeSlashes_cons, W.
        -- intros w r0 [= ]. 
      * (* a single slash *)
        cbn [rev]. rewrite <- app_assoc. cbn [app].
        apply IH; [simpl in L |- *; lia | now constructor | |].
        -- destruct written as [|w0 w]; [reflexivity|].
           rewrite schemeSlashes_cons, W, andb_true_r.
           destruct (Ascii.eqb_spec w0 "/") as [->|_]; [|reflexivity].
           cbn [andb negb orb]. now apply (G w (d :: r)).
        -- intros w r0 _ [= E]. congruence.
      * (* another character *)
        cbn [rev]. rewrite <- app_assoc. cbn [app].
        apply IH; [simpl in L |- *; lia | now constructor | |].
        -- destruct written as [|w0 w]; [reflexivity|].
           rewrite schemeSlashes_cons, W, andb_true_r.
           destruct (Ascii.eqb_spec c "/") as [|_]; [contradiction | reflexivity].
        -- intros w r0 [= E]. congruence.
Qed.

Lemma schemeSlashes_occurrence (reversed : jsstring) :
  schemeSlashes reversed = true ->
  forall x y, reversed = x ++ "/"%char :: "/"%char :: y -> afterScheme y = true.
Proof.
  intros S x. revert reversed S. induction x as [|a x IH]; intros reversed S y E.
  - subst. cbn [app] in S. rewrite schemeSlashes_cons in S.
    apply andb_prop in S as [S _]. exact S.
  - subst. cbn [app] in S. destruct (x ++ "/"%char :: "/"%char :: y) as [|b t] eqn:Q;
      [destruct x; discriminate Q|].
    rewrite schemeSlashes_cons in S. apply andb_prop in S as [_ S].
    now apply (IH (b :: t)).
Qed.

Lemma afterScheme_ends (pre : jsstring) :
  afterScheme (rev pre) = true ->
  exists p, pre = p ++ lit "http:" \/ pre = p ++ lit "https:".
Proof.
  unfold afterScheme. intros A. apply orb_true_iff in A as [A|A];
    apply startsWith_spec in A as [tail A]; exists (rev tail); [left | right];
    rewrite <- (rev_involutive pre), A, rev_app_distr, rev_involutive; reflexivity.
Qed.

Lemma cleanCommand_fixSeparators (command out : jsstring) :
  cleanCommand command = Ok out -> exists s, out = fixSeparators [] s.
Proof.
  unfold cleanCommand. destruct (storeUrls _ _) as [masked urls].
  destruct (commonCommands _); cbn [bind].
  - destruct (startsInvalid _); [discriminate|]. intros [= <-]. eauto.
  - destruct (matchAll param_re masked); cbn [bind]; [|discriminate].
    destruct (startsInvalid _); [discriminate|]. intros [= <-]. eauto.
  - destruct (startsInvalid _); [discriminate|]. intros [= <-]. eauto.
Qed.

Lemma fixSeparators_nonempty (before s : jsstring) :
  s <> [] -> fixSeparators before s <> [].
Proof.
  destruct s as [|c [|d r]]; [congruence | discriminate |].
  intros _. rewrite fixSeparators_cons. now destruct (_ && _).
Qed.

Lemma replaceFirst_nonempty (pattern url s : jsstring) :
  s <> [] -> (exists r, url = "h"%char :: r) -> replaceFirst pattern url s <> [].
Proof.
  intros N [r ->]. unfold replaceFirst. destruct (indexOf pattern s); [|assumption].
  cbn [getSubstitution Ascii.eqb Bool.eqb]. now destruct (firstn n s).
Qed.

Lemma restoreUrls_nonempty (urls : list jsstring) :
  Forall (fun url => exists r, url = "h"%char :: r) urls ->
  forall index s, s <> [] -> restoreUrls urls index s <> [].
Proof.
  induction 1 as [|url urls U _ IH]; intros index s N; [assumption|].
  cbn [restoreUrls]. apply IH. now apply replaceFirst_nonempty.
Qed.

Lemma url_re_head (s : jsstring) (n : nat) :
  url_re s = Some n -> exists r, s = "h"%char :: r.
Proof.
  intros U. apply url_re_shape in U as (scheme & run & rest & [->| ->] & -> & _);
    eexists; reflexivity.
Qed.

Lemma matches_head (fuel : nat) :
  forall s, Forall (fun url => exists r, url = "h"%char :: r)
                   (matches (scanFrom url_re fuel s)).
Proof.
  induction fuel as [|fuel IH]; intros s; [constructor|].
  destruct s as [|c r]; [constructor|]. cbn [scanFrom].
  destruct (url_re (c :: r)) as [[|n]|] eqn:U; cbn [matches flat_map app];
    try apply IH.
  constructor; [|apply IH].
  apply url_re_head in U as [r0 [= -> _]]. cbn [firstn]. eauto.
Qed.

(** The masked text starts as the trimmed text does, or with a placeholder:
    not with a space. *)
Lemma masked_head (a : ascii) (r : jsstring) :
  is_space a = false ->
  hd [] (splitOn (Ascii.eqb " ") (fst (storeUrls (scan url_re (a :: r)) []))) <> [].
Proof.
  intros SP.
  assert (K : forall x rest, x <> " "%char ->
                             hd [] (splitOn (Ascii.eqb " ") (x :: rest)) <> []).
  { intros x rest N. cbn [splitOn]. destruct (Ascii.eqb_spec " " x) as [<-|_];
      [congruence|]. now destruct (splitOn _ rest). }
  destruct (url_re (a :: r)) as [[|n]|] eqn:U.
  - rewrite scan_cons_skip by now right. rewrite storeUrls_skipped. cbn [fst].
    apply K. intros ->. discriminate SP.
  - rewrite (scan_cons_match _ _ _ U), storeUrls_matched. cbn [fst].
    now apply (K "_"%char).
  - rewrite scan_cons_skip by now left. rewrite storeUrls_skipped. cbn [fst].
    apply K. intros ->. discriminate SP.
Qed.

Lemma cleanCommand_tail (urls : list jsstring) (text out : jsstring) :
  text <> [] ->
  Forall (fun url => exists r, url = "h"%char :: r) urls ->
  (if startsInvalid (fixSeparators [] (restoreUrls urls 0 text))
   then Throw (AIError "Invalid command structure" "INVALID_COMMAND")
   else Ok (fixSeparators [] (restoreUrls urls 0 text))) = Ok out ->
  exists ch rest, out = ch :: rest /\ is_alnum ch = true.
Proof.
  intros N U.
  pose proof (fixSeparators_nonempty [] _ (restoreUrls_nonempty urls U 0 text N)) as F.
  destruct (fixSeparators [] (restoreUrls urls 0 text)) as [|ch rest]; [congruence|].
  cbn [startsInvalid]. destruct (is_alnum ch) eqn:A; cbn [negb]; [|discriminate].
  intros [= <-]. eauto.
Qed.

End NormaliserMore.

(** X17.  In a command that the normaliser returns, a double slash stands only
    right behind [http:] or [https:]: every other one has been rewritten. *)
Theorem cleanCommand_double_slash (command out pre post : jsstring) :
  cleanCommand command = Ok out ->
  out = pre ++ lit "//" ++ post ->
  exists p, pre = p ++ lit "http:" \/ pre = p ++ lit "https:".
Proof.
  intros C E. destruct (cleanCommand_fixSeparators _ _ C) as [s ->].
  apply afterScheme_ends.
  assert (S : schemeSlashes (rev (fixSeparators [] s) ++ []) = true).
  { apply (fixSeparators_schemeSlashes (length s)); auto.
    - constructor.
    - intros w r H. discriminate H. }
  rewrite app_nil_r in S.
  apply (schemeSlashes_occurrence _ S (rev post)).
  rewrite E, !rev_app_distr. cbn. now rewrite <- app_assoc.
Qed.

Lemma cleanCommand_double_slash_witness :
  exists p,
    lit "start a\b http:" = p ++ lit "http:" \/ lit "start a\b http:" = p ++ lit "https:".
Proof.
  apply (cleanCommand_double_slash "start a//b http://example.com/c"
           "start a\b http://example.com/c" "start a\b http:" "example.com/c").
  - vm_compute. reflexivity.
  - reflexivity.
Defined.

(** X18.  The normaliser turns a blank command into the empty one, and what it
    returns for any other command starts with a letter or a digit. *)
Theorem cleanCommand_start (command : jsstring) :
  (trim command = [] -> cleanCommand command = Ok []) /\
  (trim command <> [] ->
   forall out, cleanCommand command = Ok out ->
               exists ch rest, out = ch :: rest /\ is_alnum ch = true).
Proof.
  split.
  - intros B. unfold cleanCommand. rewrite B. reflexivity.
  - intros NB out C.
    destruct (trim command) as [|a r] eqn:T; [congruence|].
    pose proof (trim_head _ _ _ T) as SP.
    unfold cleanCommand in C. rewrite T in C.
    pose proof (masked_head a r SP) as M.
    pose proof (storeUrls_snd (scan url_re (a :: r)) []) as U.
    pose proof (matches_head (length (a :: r)) (a :: r)) as H.
    fold (scan url_re (a :: r)) in H.
    destruct (storeUrls (scan url_re (a :: r)) []) as [masked urls].
    cbn [fst snd app] in M, U. rewrite <- U in H.
    destruct (commonCommands _); cbn [bind] in C.
    + apply (cleanCommand_tail urls _ out) in C; auto.
      now destruct (toLowerCase _).
    + destruct (matchAll param_re masked); cbn [bind] in C; [|discriminate].
      apply (cleanCommand_tail urls _ out) in C; auto.
      now destruct (toLowerCase _).
    + apply (cleanCommand_tail urls _ out) in C; auto.
      destruct (hd [] (splitOn (Ascii.eqb " ") masked)); [congruence | discriminate].
Qed.

Lemma cleanCommand_start_witness :
  cleanCommand "  " = Ok [] /\
  exists ch rest, lit "echo a\b" = ch :: rest /\ is_alnum ch = true.
Proof.
  split.
  - apply (proj1 (cleanCommand_start "  ")). reflexivity.
  - apply (proj2 (cleanCommand_start " echo a//b ")).
    + vm_compute. discriminate.
    + vm_compute. reflexivity.
Defined.

(** ** The normaliser on its own results *)

Section Renormalising.

Lemma letter_facts (c : ascii) :
  is_letter c = true ->
  is_space c = false /\ c <> ":"%char /\ c <> " "%char /\
  Ascii.eqb c "/" || Ascii.eqb c "-" = false.
Proof.
  destruct c as [[] [] [] [] [] [] [] []]; intros H;
    first [discriminate H | repeat split; discriminate].
Qed.

Lemma scanFrom_fuel_any (re : jsstring -> option nat) (f1 : nat) :
  forall f2 s, length s <= f1 -> length s <= f2 ->
               scanFrom re f1 s = scanFrom re f2 s.
Proof.
  induction f1 as [|f1 IH]; intros f2 s L1 L2.
  - destruct s; [now destruct f2 | simpl in L1; lia].
  - destruct s as [|c r]; [now destruct f2|].
    destruct f2 as [|f2]; [simpl in L2; lia|]. cbn [scanFrom].
    destruct (re (c :: r)) as [[|n]|].
    + f_equal. apply IH; simpl in *; lia.
    + f_equal. apply IH; rewrite length_skipn; simpl in *; lia.
    + f_equal. apply IH; simpl in *; lia.
Qed.

Lemma scanFrom_cons (re : jsstring -> option nat) (fuel : nat) (c : ascii)
      (r : jsstring) :
  scanFrom re (S fuel) (c :: r) =
  match re (c :: r) with
  | Some (S n) =>
      Matched (firstn (S n) (c :: r)) :: scanFrom re fuel (skipn (S n) (c :: r))
  | _ => Skipped c :: scanFrom re fuel r
  end.
Proof. reflexivity. Qed.

Lemma param_skip (c : ascii) (s : jsstring) :
  Ascii.eqb c "/" || Ascii.eqb c "-" = false ->
  scan param_re (c :: s) = Skipped c :: scan param_re s.
Proof. intros H. unfold scan. cbn [length scanFrom param_re]. now rewrite H. Qed.

Lemma takeWhile_letters (l rest : jsstring) :
  forallb is_letter l = true -> endsWord rest ->
  takeWhile is_letter (l ++ rest) = l.
Proof.
  intros L R. induction l as [|c l IH]; cbn [app].
  - destruct R as [->|[r ->]]; reflexivity.
  - cbn [forallb] in L. apply andb_prop in L as [C L]. cbn [takeWhile].
    rewrite C. f_equal. now apply IH.
Qed.

Lemma firstn_length_app {A} (l r : list A) : firstn (length l) (l ++ r) = l.
Proof. induction l; simpl; congruence. Qed.

Lemma skipn_length_app {A} (l r : list A) : skipn (length l) (l ++ r) = r.
Proof. induction l; simpl; congruence. Qed.

(** The parameter pattern takes a flag that a space or the end follows as a
    whole. *)
Lemma param_flag (f rest : jsstring) :
  flagShaped f = true -> endsWord rest ->
  scan param_re (f ++ rest) = Matched f :: scan param_re rest.
Proof.
  intros F R. destruct f as [|sign [|l0 l]]; try discriminate F.
  cbn [flagShaped] in F. apply andb_prop in F as [Sg L].
  unfold scan. cbn [app length]. rewrite scanFrom_cons. cbn [param_re]. rewrite Sg.
  change (l0 :: l ++ rest) with ((l0 :: l) ++ rest).
  rewrite (takeWhile_letters _ _ L R).
  cbn [length Nat.add firstn skipn app].
  rewrite firstn_length_app, skipn_length_app. f_equal.
  apply scanFrom_fuel_any; rewrite ?length_app; lia.
Qed.

Lemma param_join (flags : list jsstring) :
  forallb flagShaped flags = true -> matchAll param_re (join " " flags) = flags.
Proof.
  unfold matchAll. induction flags as [|f [|g rest] IH]; intros F.
  - reflexivity.
  - cbn [forallb] in F. apply andb_prop in F as [F _]. cbn [join].
    rewrite <- (app_nil_r f) at 1. rewrite param_flag by (auto; now left).
    reflexivity.
  - cbn [forallb] in F. apply andb_prop in F as [F G].
    change (join " " (f :: g :: rest)) with (f ++ " "%char :: join " " (g :: rest)).
    rewrite param_flag by (auto; right; eauto).
    rewrite param_skip by reflexivity. cbn [matches flat_map app].
    f_equal. now apply IH.
Qed.

Lemma param_word (w rest : jsstring) :
  forallb is_letter w = true ->
  matchAll param_re (w ++ rest) = matchAll param_re rest.
Proof.
  unfold matchAll. induction w as [|c w IH]; intros L; [reflexivity|].
  cbn [forallb] in L. apply andb_prop in L as [C L]. cbn [app].
  rewrite param_skip by apply (letter_facts c C). now apply IH.
Qed.

Lemma join_In (parts : list jsstring) (c : ascii) :
  In c (join " " parts) -> c = " "%char \/ exists p, In p parts /\ In c p.
Proof.
  induction parts as [|p [|q rest] IH]; cbn [join]; intros I.
  - destruct I.
  - right. exists p. split; [now left | assumption].
  - apply in_app_or in I as [I|I]; [right; exists p; split; [now left | assumption]|].
    apply in_app_or in I as [[<-|[]]|I]; [now left|].
    destruct (IH I) as [->|(p' & P & C)]; [now left | right].
    exists p'. split; [now right | assumption].
Qed.

Lemma flagShaped_In (f : jsstring) (c : ascii) :
  flagShaped f = true -> In c f -> c <> ":"%char /\ is_space c = false.
Proof.
  destruct f as [|sign [|l0 l]]; try discriminate. cbn [flagShaped].
  intros F I. apply andb_prop in F as [Sg L]. destruct I as [<-|I].
  - apply orb_prop in Sg as [Sg|Sg]; apply Ascii.eqb_eq in Sg; subst;
      split; [discriminate | reflexivity | discriminate | reflexivity].
  - rewrite forallb_forall in L. destruct (letter_facts c (L c I)) as (Sp & Co & _).
    now split.
Qed.

(** The last character of joined flags is a letter. *)
Lemma join_last (flags : list jsstring) :
  flags <> [] -> forallb flagShaped flags = true ->
  exists r c, join " " flags = r ++ [c] /\ is_space c = false.
Proof.
  induction flags as [|f [|g rest] IH]; intros N F; [congruence| |].
  - cbn [forallb] in F. apply andb_prop in F as [F _]. cbn [join].
    destruct (exists_last (l := f)) as (r & c & E); [now destruct f|].
    exists r, c. split; [assumption|].
    apply (flagShaped_In f c F). rewrite E. apply in_or_app. right. now left.
  - cbn [forallb] in F. apply andb_prop in F as [_ G].
    destruct (IH ltac:(discriminate) G) as (r & c & E & Sp).
    change (join " " (f :: g :: rest)) with (f ++ lit " " ++ join " " (g :: rest)).
    rewrite E. exists (f ++ lit " " ++ r), c. split; [|assumption].
    now rewrite <- !app_assoc.
Qed.

Lemma firstSeen_fixed (l : list jsstring) : NoDup l -> firstSeen l = l.
Proof.
  induction 1 as [|x l N _ IH]; [reflexivity|]. cbn [firstSeen]. rewrite IH.
  f_equal. apply forallb_filter_id. apply forallb_forall. intros y I.
  destruct (eqb y x) eqn:Q; [|reflexivity]. apply eqb_eq in Q. congruence.
Qed.

(** What the known branch returns, normalised again. *)
Lemma cleanCommand_again (base : jsstring) (validParams flags : list jsstring) :
  In (base, validParams) knownCommands ->
  NoDup flags ->
  (forall f, In f flags -> In f validParams /\ toLowerCase f = f) ->
  cleanCommand (base ++ lit " " ++ join " " flags) =
  Ok (base ++ lit " " ++ join " " flags).
Proof.
  intros K N V.
  assert (Facts : forallb is_letter base = true /\ base <> [] /\
                  forallb flagShaped validParams = true /\
                  toLowerCase base = base /\
                  commonCommands base = ValidParams validParams /\
                  tidy base = true /\ startsInvalid (base ++ lit " ") = false /\
                  forallb tidy validParams = true).
  { unfold knownCommands in K.
    repeat (destruct K as [K|K];
            [injection K as <- <-; repeat split; discriminate|]).
    destruct K. }
  destruct Facts as (LB & NB & FV & LC & CC & TB & SB & TV).
  assert (FF : forallb flagShaped flags = true).
  { apply forallb_forall. intros f I. rewrite forallb_forall in FV.
    apply FV, V, I. }
  set (rest := match flags with [] => [] | _ => lit " " ++ join " " flags end).
  assert (R : endsWord rest).
  { unfold rest. destruct flags; [now left | right; eexists; reflexivity]. }
  assert (SpB : forall c, In c base -> is_space c = false /\ c <> ":"%char /\
                                      c <> " "%char).
  { intros c I. rewrite forallb_forall in LB.
    destruct (letter_facts c (LB c I)) as (A & B & C & _). auto. }
  assert (T : trim (base ++ lit " " ++ join " " flags) = base ++ rest).
  { assert (TBase : trim base = base).
    { apply trim_fixed; intros c r E; apply SpB; rewrite E;
        [now left | apply in_or_app; right; now left]. }
    unfold rest. destruct flags as [|f fs].
    - cbn [join]. rewrite !app_nil_r.
      apply (trim_spaces_around [] base (lit " ")); auto.
    - apply trim_fixed.
      + intros c r E. apply SpB. destruct base as [|b base']; [congruence|].
        injection E as <- _. now left.
      + intros c r E.
        destruct (join_last (f :: fs) ltac:(discriminate) FF) as (r' & c' & J & Sp).
        rewrite J, !app_assoc in E. apply app_inj_tail in E as [_ <-]. exact Sp. }
  assert (NC : ~ In ":"%char (base ++ rest)).
  { intros I. apply in_app_or in I as [I|I];
      [destruct (SpB _ I) as (_ & Co & _); congruence|].
    unfold rest in I. destruct flags as [|f fs]; [destruct I|].
    destruct I as [I|I]; [discriminate I|].
    apply join_In in I as [I|(p & P & C)]; [discriminate I|].
    rewrite forallb_forall in FF. now apply (flagShaped_In p ":"%char (FF p P)) in C. }
  assert (M : maskedText (base ++ lit " " ++ join " " flags) = base ++ rest).
  { unfold maskedText. rewrite T.
    pose proof (storeUrls_word (base ++ rest) [] [] NC ltac:(now left)) as W.
    rewrite app_nil_r in W. rewrite W. cbn. apply app_nil_r. }
  rewrite (cleanCommand_known _ base validParams); auto.
  - unfold flagTokens. rewrite M, (param_word base rest LB).
    replace (matchAll param_re rest) with flags.
    + do 3 f_equal.
      replace (map toLowerCase flags) with flags.
      * rewrite forallb_filter_id, firstSeen_fixed; auto.
        apply forallb_forall. intros f I. apply arrayIncludes_In. now apply V.
      * rewrite <- (map_id flags) at 1. apply map_ext_in. intros f I.
        symmetry. now apply V.
    + unfold rest, matchAll. destruct flags as [|f fs]; [reflexivity|].
      cbn [app lit list_ascii_of_string]. rewrite param_skip by reflexivity.
      cbn [matches flat_map app]. symmetry. now apply param_join.
  - unfold baseWord. rewrite M, hd_splitOn_word; auto.
    intros I. destruct (SpB _ I) as (_ & _ & Sp). congruence.
Qed.

End Renormalising.

(** X19.  The normaliser changes nothing in what it returned for a known command:
    normalising the result again returns the same command. *)
Theorem cleanCommand_known_idempotent (command out : jsstring) :
  In (toLowerCase (firstWord command)) (map fst knownCommands) ->
  cleanCommand command = Ok out ->
  cleanCommand out = Ok out.
Proof.
  intros K C. apply in_map_iff in K as ([base validParams] & B & K).
  cbn [fst] in B. symmetry in B.
  assert (W : baseWord command = firstWord command).
  { apply baseWord_firstWord. intros I. apply toLowerCase_In in I.
    rewrite B in I. unfold knownCommands in K.
    repeat (destruct K as [K|K];
            [injection K as <- <-; vm_compute in I; intuition congruence|]).
    destruct K. }
  rewrite <- W in B.
  assert (E : cleanCommand command =
              Ok (base ++ lit " " ++
                  join " " (firstSeen (filter (arrayIncludes validParams)
                                              (map toLowerCase (flagTokens command)))))).
  { unfold knownCommands in K.
    repeat (destruct K as [K|K];
            [injection K as <- <-; now apply cleanCommand_known|]).
    destruct K. }
  rewrite E in C. injection C as <-.
  apply (cleanCommand_again base validParams); [assumption | apply firstSeen_NoDup|].
  intros f I. apply firstSeen_In, filter_In in I as [I A].
  split; [now apply arrayIncludes_In|].
  apply in_map_iff in I as (token & <- & _). apply toLowerCase_idempotent.
Qed.

Lemma cleanCommand_known_idempotent_witness :
  cleanCommand "dir /s /a" = Ok (lit "dir /s /a").
Proof.
  apply (cleanCommand_known_idempotent "DIR /S /a junk /s" "dir /s /a").
  - vm_compute. tauto.
  - vm_compute. reflexivity.
Defined.

(** ** The prompt *)

(** X20.  In one directory, two requests give the same prompt only when they are
    the same request: the prompt carries the request unchanged. *)
Theorem createPrompt_injective (CURRENT_DIR request request' : jsstring) :
  createPrompt CURRENT_DIR request = createPrompt CURRENT_DIR request' ->
  request = request'.
Proof.
  unfold createPrompt. intros E.
  apply app_inv_head, app_inv_head, app_inv_head in E.
  now apply app_inv_tail in E.
Qed.

Lemma createPrompt_injective_witness : lit "list files" = lit "list files".
Proof.
  apply (createPrompt_injective "C:\Users" "list files" "list files"). reflexivity.
Defined.
